(** * easi-translate: the JSON walker and the menu enrichment driver

    A shallow embedding of [easi-translate.py].  Python objects live in a
    store; lists and dicts are referred to by address, so that the container
    a generator hands out is the very object the driver later writes to.
    Logging, the pause after the lookups and the reading and writing of
    files are left out. *)

From Stdlib Require Import ZArith String Ascii Lia.
From stdpp Require Import list.

Local Open Scope Z_scope.

(** ** Strings

    A Python [str] is a sequence of code points; [ord] is the identity on
    this representation. *)

Abbreviation pystr := (list Z) (only parsing).

(** ASCII literals of the script, written as Rocq strings. *)
Fixpoint str (s : string) : pystr :=
  match s with
  | EmptyString => []
  | String c r => Z.of_nat (nat_of_ascii c) :: str r
  end.
Arguments str : simpl never.

Definition ASCII_BUT_UNICODE : list Z := [0x2018; 0xff08; 0xff09; 0xff0c].

(** [x in l] for a list of ints. *)
Definition int_in (x : Z) (l : list Z) : bool := existsb (Z.eqb x) l.

(** def is_ascii(s):
      return all(ord(c) < 128 or ord(c) in ASCII_BUT_UNICODE for c in s) *)
Definition is_ascii (s : pystr) : bool :=
  forallb (fun c => (c <? 128) || int_in c ASCII_BUT_UNICODE) s.

(** def strip_ascii(s):
      return ''.join(c for c in s if ord(c) > 128 and ord(c) not in ASCII_BUT_UNICODE) *)
Definition strip_ascii (s : pystr) : pystr :=
  List.filter (fun c => (c >? 128) && negb (int_in c ASCII_BUT_UNICODE)) s.

(** [str.isspace] on one character: the code points CPython's
    [_PyUnicode_IsWhitespace] accepts. *)
Definition is_space (c : Z) : bool :=
  ((0x09 <=? c) && (c <=? 0x0d)) || ((0x1c <=? c) && (c <=? 0x20))
  || (c =? 0x85) || (c =? 0xa0) || (c =? 0x1680)
  || ((0x2000 <=? c) && (c <=? 0x200a))
  || (c =? 0x2028) || (c =? 0x2029) || (c =? 0x202f) || (c =? 0x205f)
  || (c =? 0x3000).

Fixpoint lstrip (s : pystr) : pystr :=
  match s with
  | [] => []
  | c :: r => if is_space c then lstrip r else s
  end.

Definition rstrip (s : pystr) : pystr := rev (lstrip (rev s)).

(** [s.strip()] *)
Definition strip (s : pystr) : pystr := rstrip (lstrip s).

(** ** Values and the store *)

Abbreviation addr := nat (only parsing).

Inductive pyval : Type :=
| PNone
| PBool (b : bool)
| PInt (n : Z)
| PFloat (literal : pystr)   (* a float, kept as the literal it was read from *)
| PStr (s : pystr)
| PRef (a : addr).           (* a list or a dict, by identity *)

(** A dict keeps its entries in insertion order. *)
Inductive pyobj : Type :=
| OList (xs : list pyval)
| ODict (kvs : list (pystr * pyval)).

Abbreviation heap := (list pyobj) (only parsing).

(** The second component of a yielded triple: a list index or a dict key. *)
Inductive pykey : Type :=
| KIdx (i : nat)
| KStr (k : pystr).

(** What the walker yields: [(value, key, container)]. *)
Abbreviation triple := (pyval * pykey * addr)%type (only parsing).

#[global] Instance pyval_eq_dec : EqDecision pyval.
Proof. solve_decision. Defined.
#[global] Instance pykey_eq_dec : EqDecision pykey.
Proof. solve_decision. Defined.
#[global] Instance pyobj_eq_dec : EqDecision pyobj.
Proof. solve_decision. Defined.

(** def valid_translate_value(value, key, context):
      if isinstance(value, str):
          if not is_ascii(value):
              return True
      return False *)
Definition valid_translate_value (h : heap) (value : pyval) (key : pykey) (context : addr) : bool :=
  match value with
  | PStr s => if negb (is_ascii s) then true else false
  | _ => false
  end.

(** ** The walker *)

Definition predicate : Type := heap -> pyval -> pykey -> addr -> bool.

(** [enumerate(j)] and [j.items()], as (key, value) pairs in iteration order. *)
Definition enumerate (xs : list pyval) : list (pykey * pyval) :=
  imap (fun i x => (KIdx i, x)) xs.

Definition items (kvs : list (pystr * pyval)) : list (pykey * pyval) :=
  map (fun kv => (KStr kv.1, kv.2)) kvs.

(** The body of a [for] loop whose iterations each contribute a run of
    yields; [None] once an iteration fails. *)
Fixpoint for_yield {A} (body : A -> option (list triple)) (l : list A) : option (list triple) :=
  match l with
  | [] => Some []
  | x :: r =>
      match body x with
      | None => None
      | Some ys => (ys ++.) <$> for_yield body r
      end
  end.

(** One [for] loop of [traverse_json] over the entries of the container at
    [a]: each entry is yielded when the predicate holds of it, and then
    walked by [recur], whatever the predicate said. *)
Definition for_entries (recur : pyval -> option (list triple)) (value_processor : predicate)
    (h : heap) (a : addr) (entries : list (pykey * pyval)) : option (list triple) :=
  for_yield (fun kx =>
      ((if value_processor h kx.2 kx.1 a then [(kx.2, kx.1, a)] else []) ++.) <$> recur kx.2)
    entries.

(** def traverse_json(j, value_processor):
      if isinstance(j, list):
          for i, x in enumerate(j):
              if value_processor(x, i, j):
                  yield x, i, j
              yield from traverse_json(x, value_processor)
      elif isinstance(j, dict):
          for k, v in j.items():
              if value_processor(v, k, j):
                  yield v, k, j
              yield from traverse_json(v, value_processor)

    The whole sequence a walk of an unchanging store yields.  [depth] bounds
    the nesting of recursive calls; [None] is the interpreter giving up on
    the recursion. *)
Fixpoint traverse_json (depth : nat) (h : heap) (j : pyval) (value_processor : predicate)
  : option (list triple) :=
  match depth with
  | O => None
  | S depth' =>
      match j with
      | PRef a =>
          match h !! a with
          | Some (OList xs) =>
              for_entries (fun x => traverse_json depth' h x value_processor)
                value_processor h a (enumerate xs)
          | Some (ODict kvs) =>
              for_entries (fun v => traverse_json depth' h v value_processor)
                value_processor h a (items kvs)
          | None => Some []
          end
      | _ => Some []
      end
  end.

(** ** The walker as a generator

    [traverse_json] is a generator: it runs only when the consumer asks for
    the next triple, and the consumer may write to the store in between.  A
    suspended walk is a stack of frames, innermost first.  [FEnter j] is a
    call [traverse_json(j, ...)] whose body has not started; [FIter a i] is a
    [for] loop over the container at [a] that has consumed [i] entries. *)

Inductive frame : Type :=
| FEnter (j : pyval)
| FIter (a : addr) (i : nat).

Abbreviation generator := (list frame) (only parsing).

Inductive step_result : Type :=
| Done
| Silent (g : generator)
| Yield (t : triple) (g : generator).

Definition container_items (o : pyobj) : list (pykey * pyval) :=
  match o with
  | OList xs => enumerate xs
  | ODict kvs => items kvs
  end.

(** The entry the iterator of the container at [a] produces at position [i]. *)
Definition slot (h : heap) (a : addr) (i : nat) : option (pykey * pyval) :=
  match h !! a with
  | Some o => container_items o !! i
  | None => None
  end.

(** One step of a suspended walk against the store as it is now. *)
Definition gen_step (value_processor : predicate) (h : heap) (g : generator) : step_result :=
  match g with
  | [] => Done
  | FEnter (PRef a) :: rest =>
      match h !! a with
      | Some _ => Silent (FIter a 0 :: rest)
      | None => Silent rest
      end
  | FEnter _ :: rest => Silent rest
  | FIter a i :: rest =>
      match slot h a i with
      | Some (k, x) =>
          let g' := FEnter x :: FIter a (S i) :: rest in
          if value_processor h x k a then Yield (x, k, a) g' else Silent g'
      | None => Silent rest
      end
  end.

(** The generator object [traverse_json(j, value_processor)] before its
    first [next]. *)
Definition traverse_json_gen (j : pyval) : generator := [FEnter j].

(** Exhausting a generator while the store stays as it is:
    [for value, key, context in g: out.append((value, key, context))]. *)
Fixpoint drain (fuel : nat) (value_processor : predicate) (h : heap) (g : generator)
  : option (list triple) :=
  match fuel with
  | O => None
  | S n =>
      match gen_step value_processor h g with
      | Done => Some []
      | Silent g' => drain n value_processor h g'
      | Yield t g' => (t ::.) <$> drain n value_processor h g'
      end
  end.

(** ** Container operations of the driver *)

Fixpoint dict_get (kvs : list (pystr * pyval)) (k : pystr) : option pyval :=
  match kvs with
  | [] => None
  | (k', v) :: r => if decide (k' = k) then Some v else dict_get r k
  end.

(** [d[k] = v]: an existing key keeps its place, a new key goes last. *)
Fixpoint dict_set (kvs : list (pystr * pyval)) (k : pystr) (v : pyval) : list (pystr * pyval) :=
  match kvs with
  | [] => [(k, v)]
  | (k', v') :: r => if decide (k' = k) then (k, v) :: r else (k', v') :: dict_set r k v
  end.

(** [context[key]]; [None] is IndexError, KeyError or TypeError. *)
Definition getitem (h : heap) (context : addr) (key : pykey) : option pyval :=
  match h !! context, key with
  | Some (OList xs), KIdx i => xs !! i
  | Some (ODict kvs), KStr k => dict_get kvs k
  | _, _ => None
  end.

(** [context[key] = v]; [None] is IndexError or TypeError. *)
Definition setitem (h : heap) (context : addr) (key : pykey) (v : pyval) : option heap :=
  match h !! context, key with
  | Some (OList xs), KIdx i =>
      if decide (i < length xs)%nat then Some (<[context := OList (<[i := v]> xs)]> h) else None
  | Some (ODict kvs), KStr k => Some (<[context := ODict (dict_set kvs k v)]> h)
  | _, _ => None
  end.

(** A dict display [{...}]: a new object, at an address no one holds yet. *)
Definition new_dict (h : heap) (kvs : list (pystr * pyval)) : heap * pyval :=
  (h ++ [ODict kvs], PRef (length h)).

(** [x == y] for the values of a JSON document: strings and numbers compare
    by content, containers only matter here as operands that differ from any
    string. *)
Definition str_eq (x : pyval) (s : pystr) : bool :=
  match x with
  | PStr s' => bool_decide (s' = s)
  | _ => false
  end.

(** [s in context] for a string [s]: a key of a dict, an element of a list. *)
Definition contains (h : heap) (context : addr) (s : pystr) : bool :=
  match h !! context with
  | Some (OList xs) => existsb (fun x => str_eq x s) xs
  | Some (ODict kvs) => existsb (fun kv => bool_decide (kv.1 = s)) kvs
  | None => false
  end.

(** ** The browser

    Selenium is outside the script.  A driver object is a handle into the
    state of the world's browsers; every call may change that state and may
    raise.  Only the distinction the script itself draws between exceptions
    is kept. *)

Inductive exn : Type :=
| InvalidSessionIdException
| OtherException.

Inductive outcome (A : Type) : Type :=
| Returns (a : A)
| Raises (e : exn).
Arguments Returns {A} a.
Arguments Raises {A} e.

Record browser : Type := {
  world : Type;
  element : Type;
  (* getattr(webdriver, args.webdriver)() *)
  new_driver : world -> world * nat;
  (* driver.get(url) *)
  driver_get : world -> nat -> pystr -> world * outcome unit;
  (* driver.find_element_by_xpath(xpath) *)
  find_element_by_xpath : world -> nat -> pystr -> world * outcome element;
  (* el.get_attribute(name) *)
  get_attribute : world -> element -> pystr -> world * outcome pyval;
  (* getattr(el, name) *)
  getattr : world -> element -> pystr -> world * outcome pyval;
}.

(** What the script asks of the other libraries: the batch translation
    request ([None] when it raises, else the [translated_text] of each
    returned translation), [pinyin.get(s, delimiter=" ")] and
    [urllib.parse.quote].  The request is made inside a [try]; the other
    two are not, and there are strings on which they raise (a lone
    surrogate cannot be encoded by [quote]): [None] is the call raising,
    and the exception leaves [main]. *)
Record services : Type := {
  translate_text : list pyval -> option (list pystr);
  pinyin_get : pystr -> option pystr;
  quote : pystr -> option pystr;
}.

Section Driver.

Context (B : browser) (Sv : services).

(** [attr.startswith("@")] *)
Definition startswith_at (attr : pystr) : bool :=
  match attr with
  | c :: _ => c =? 64
  | [] => false
  end.

(** The [for xpath, attr in xpaths] loop of [get_page]; the result is what
    [get_page] returns. *)
Fixpoint get_page_xpaths (w : world B) (driver : nat) (xpaths : list (pystr * pystr))
    (results : list pyval) : world B * option (list pyval) :=
  match xpaths with
  | [] => (w, Some results)
  | (xpath, attr) :: rest =>
      match find_element_by_xpath B w driver xpath with
      | (w1, Returns el) =>
          match (if startswith_at attr then get_attribute B w1 el (tail attr)
                 else getattr B w1 el attr) with
          | (w2, Returns v) => get_page_xpaths w2 driver rest (results ++ [v])
          | (w2, Raises InvalidSessionIdException) => (w2, None)
          | (w2, Raises OtherException) => get_page_xpaths w2 driver rest results
          end
      | (w1, Raises InvalidSessionIdException) => (w1, None)
      | (w1, Raises OtherException) => get_page_xpaths w1 driver rest results
      end
  end.

(** def get_page(url, xpaths, driver):
      page = False
      results = []
      try:
          driver.get(url)
          page = True
      except Exception as e:
          logging.error(...)
      if page:
          for xpath, attr in xpaths:
              try:
                  el = driver.find_element_by_xpath(xpath)
                  results.append(el.get_attribute(attr[1:]) if attr.startswith("@") else getattr(el, attr))
              except InvalidSessionIdException as e:
                  return None
              except Exception as e:
                  pass
      return results *)
Definition get_page (w : world B) (url : pystr) (xpaths : list (pystr * pystr)) (driver : nat)
  : world B * option (list pyval) :=
  let '(w1, r) := driver_get B w driver url in
  let page := match r with Returns _ => true | Raises _ => false end in
  if page then get_page_xpaths w1 driver xpaths [] else (w1, Some []).

(** f"https://www.google.com/search?q={urllib.parse.quote(value)}" *)
Definition search_url (value : pystr) : option pystr :=
  quoted ← quote Sv value;
  Some (str "https://www.google.com/search?q=" ++ quoted).

Definition search_xpaths : list (pystr * pystr) :=
  [ (str "//*[contains(@class,'kno-ecr-pt')]/span", str "text");
    (str "//*[contains(@class,'kno-ecr-pt')]/following-sibling::node()/span", str "text") ].

(** f"https://www.google.com/search?tbm=isch&q={urllib.parse.quote(value)}+food" *)
Definition img_search_url (value : pystr) : option pystr :=
  quoted ← quote Sv value;
  Some (str "https://www.google.com/search?tbm=isch&q=" ++ quoted ++ str "+food").

Definition img_search_xpaths : list (pystr * pystr) :=
  [ (str "//*[contains(@class,'rg_i')]", str "@src") ].

(** google_search = None
    while google_search is None:
        google_search = get_page(<search url>, <xpaths>, driver)
        if google_search is None:
            driver = getattr(webdriver, args.webdriver)()

    [fuel] bounds the number of iterations; the result is the world, the
    driver and [google_search] when the loop is left, [None] when the
    bound is passed or [quote] raises. *)
Fixpoint google_search_loop (fuel : nat) (w : world B) (driver : nat) (value : pystr)
  : option (world B * nat * list pyval) :=
  match fuel with
  | O => None
  | S n =>
      url ← search_url value;
      let '(w1, google_search) := get_page w url search_xpaths driver in
      match google_search with
      | None =>
          let '(w2, driver') := new_driver B w1 in
          google_search_loop n w2 driver' value
      | Some results => Some (w1, driver, results)
      end
  end.

(** google_img_search = None
    while google_img_search is None:
        google_img_search = get_page(<image search url>, <xpaths>, driver)
        if google_search is None:
            driver = getattr(webdriver, args.webdriver)() *)
Fixpoint google_img_search_loop (fuel : nat) (w : world B) (driver : nat)
    (google_search : option (list pyval)) (value : pystr)
  : option (world B * nat * list pyval) :=
  match fuel with
  | O => None
  | S n =>
      url ← img_search_url value;
      let '(w1, google_img_search) := get_page w url img_search_xpaths driver in
      let '(w2, driver') :=
        match google_search with
        | None => new_driver B w1
        | Some _ => (w1, driver)
        end in
      match google_img_search with
      | None => google_img_search_loop n w2 driver' google_search value
      | Some results => Some (w2, driver', results)
      end
  end.

(** ** The per-file processing of [main] *)

(** What the loop of [main] carries from one leaf to the next: the store,
    the browsers, and the [driver] variable. *)
Record state : Type := State {
  st_heap : heap;
  st_world : world B;
  st_driver : nat;
}.

(** [context[key][field] = v] *)
Definition set_field (h : heap) (context : addr) (key : pykey) (field : pystr) (v : pyval)
  : option heap :=
  match getitem h context key with
  | Some (PRef r) => setitem h r (KStr field) v
  | _ => None
  end.

(** [google_search[0]] *)
Definition first (results : list pyval) : pyval := default PNone (head results).

(** Lines 138-161: the two lookups of a leaf whose container has [price],
    and the fields they contribute. *)
Definition price_lookups (retries : nat) (st : state) (value : pystr) (key : pykey) (context : addr)
  : option state :=
  '(w1, driver1, google_search) ← google_search_loop retries (st_world st) (st_driver st) value;
  '(w2, driver2, google_img_search) ←
      google_img_search_loop retries w1 driver1 (Some google_search) value;
  h1 ← (if decide (0 < length google_search)%nat
        then set_field (st_heap st) context key (str "knowledge_graph") (first google_search)
        else Some (st_heap st));
  h2 ← (if decide (0 < length google_img_search)%nat
        then set_field h1 context key (str "google_image") (first google_img_search)
        else Some h1);
  Some (State h2 w2 driver2).

(** Lines 127-164, the body of the mutation loop for the [j]-th triple the
    walker hands out.  [None]: an exception escaped, or a retry loop went
    round more than [retries] times. *)
Definition enrich (retries : nat) (translation_response : option (list pystr))
    (st : state) (j : nat) (vkc : triple) : option state :=
  let '(value, key, context) := vkc in
  (* context[key] = { "value": value } *)
  let '(h0, record) := new_dict (st_heap st) [(str "value", value)] in
  h1 ← setitem h0 context key record;
  (* strip_ascii(value) iterates over a string *)
  s ← (match value with PStr s => Some s | _ => None end);
  let pinyin_value := strip (strip_ascii s) in
  h2 ← (if decide (0 < length pinyin_value)%nat
        then p ← pinyin_get Sv (strip_ascii s);
             set_field h1 context key (str "pinyin") (PStr p)
        else Some h1);
  st3 ← (if contains h2 context (str "price")
         then price_lookups retries (State h2 (st_world st) (st_driver st)) s key context
         else Some (State h2 (st_world st) (st_driver st)));
  (* if translation_response and j < len(translation_response.translations) *)
  h4 ← (match translation_response with
        | Some translations =>
            if decide (j < length translations)%nat
            then t ← translations !! j;
                 set_field (st_heap st3) context key (str "translation") (PStr t)
            else Some (st_heap st3)
        | None => Some (st_heap st3)
        end);
  Some (State h4 (st_world st3) (st_driver st3)).

(** for j, vkc in enumerate(traverse_json(menu_json, valid_translate_value)):
        <body>

    The generator is resumed against the store the body has just written. *)
Fixpoint mutation_pass (fuel retries : nat) (translation_response : option (list pystr))
    (st : state) (g : generator) (j : nat) : option state :=
  match fuel with
  | O => None
  | S n =>
      match gen_step valid_translate_value (st_heap st) g with
      | Done => Some st
      | Silent g' => mutation_pass n retries translation_response st g' j
      | Yield vkc g' =>
          match enrich retries translation_response st j vkc with
          | Some st' => mutation_pass n retries translation_response st' g' (S j)
          | None => None
          end
      end
  end.

(** all_translation_values = [ ]
    for value, key, context in traverse_json(menu_json, valid_translate_value):
        all_translation_values.append(value) *)
Definition collect (fuel : nat) (h : heap) (menu_json : pyval) : option (list pyval) :=
  map (fun vkc : triple => vkc.1.1) <$> drain fuel valid_translate_value h (traverse_json_gen menu_json).

(** Lines 108-164 for one loaded menu. *)
Definition process_menu (fuel retries : nat) (st : state) (menu_json : pyval) : option state :=
  all_translation_values ← collect fuel (st_heap st) menu_json;
  let translation_response := translate_text Sv all_translation_values in
  mutation_pass fuel retries translation_response st (traverse_json_gen menu_json) 0.

End Driver.

(** ** Loading a menu

    [json.load] is the library's; what matters of it is the shape of its
    result: every array and every object of the text becomes an object of
    its own in the store, referred to from exactly one place. *)

#[warnings="-register-all"] Inductive json : Type :=
| JNull
| JBool (b : bool)
| JInt (n : Z)
| JFloat (literal : pystr)
| JString (s : pystr)
| JArray (elems : list json)
| JObject (members : list (pystr * json)).

Definition load_seq {A} (ld : A -> heap -> heap * pyval) : list A -> heap -> heap * list pyval :=
  fix go l h :=
    match l with
    | [] => (h, [])
    | t :: r =>
        let '(h1, v) := ld t h in
        let '(h2, vs) := go r h1 in
        (h2, v :: vs)
    end.

(** [dict(pairs)]: a repeated key keeps its first place and its last value. *)
Definition dict_of (pairs : list (pystr * pyval)) : list (pystr * pyval) :=
  fold_left (fun d kv => dict_set d kv.1 kv.2) pairs [].

Fixpoint load (t : json) (h : heap) : heap * pyval :=
  match t with
  | JNull => (h, PNone)
  | JBool b => (h, PBool b)
  | JInt n => (h, PInt n)
  | JFloat l => (h, PFloat l)
  | JString s => (h, PStr s)
  | JArray elems =>
      let '(h', vs) := load_seq load elems h in
      (h' ++ [OList vs], PRef (length h'))
  | JObject members =>
      let '(h', vs) := load_seq (fun kt => load (snd kt)) members h in
      (h' ++ [ODict (dict_of (zip (map fst members) vs))], PRef (length h'))
  end.

(** ** Sample inputs *)

Definition hello : pystr := str "Hello".
(** "你好" *)
Definition ni_hao : pystr := [0x4f60; 0x597d].
(** "你好, world（ok）" *)
Definition ni_hao_world : pystr :=
  ni_hao ++ str ", world" ++ [0xff08] ++ str "ok" ++ [0xff09].
Definition digits : pystr := str "123".
(** "（）、": two full-width parentheses and the ideographic comma U+3001. *)
Definition parens_ideographic_comma : pystr := [0xff08; 0xff09; 0x3001].

(** The driver's predicate in the words of the specification: a string with
    a character that is neither below 128 nor on the allow-list. *)
Definition selected_spec (value : pyval) : Prop :=
  exists s, value = PStr s /\
    exists c, In c s /\ ~ c < 128 /\ ~ In c [0x2018; 0xff08; 0xff09; 0xff0c].

(** ** Vocabulary of the statements about the walker *)

(** The containers a walk from [j] can come to. *)
Inductive reach (h : heap) : pyval -> addr -> Prop :=
| reach_root a : reach h (PRef a) a
| reach_entry a o k x b :
    h !! a = Some o -> In (k, x) (container_items o) -> reach h x b ->
    reach h (PRef a) b.

(** The document under [j] is the same in both stores, whatever else
    differs between them. *)
Definition same_document (h1 h2 : heap) (j : pyval) : Prop :=
  forall a, reach h1 j a -> h2 !! a = h1 !! a.

(** The predicate answers alike in both stores on the entries of the
    document; any predicate that looks at its arguments only does. *)
Definition same_answers (value_processor : predicate) (h1 h2 : heap) (j : pyval) : Prop :=
  forall a o k x,
    reach h1 j a -> h1 !! a = Some o -> In (k, x) (container_items o) ->
    value_processor h2 x k a = value_processor h1 x k a.

(** The predicate that selects everything. *)
Definition select_all : predicate := fun _ _ _ _ => true.

(** Whether the predicate holds of a triple. *)
Definition selects (value_processor : predicate) (h : heap) (t : triple) : bool :=
  value_processor h t.1.1 t.1.2 t.2.

Definition is_container (j : pyval) : bool :=
  match j with
  | PRef _ => true
  | _ => false
  end.

(** A store with one list, [[ "ab", ["你好"], "你好" ]], whose second element
    is the list at address 0. *)
Definition nested_heap : heap :=
  [ OList [PStr ni_hao]; OList [PStr (str "ab"); PRef 0%nat; PStr ni_hao] ].


(** The value a frame of a suspended walk is still working on. *)
Definition frame_root (f : frame) : pyval :=
  match f with
  | FEnter j => j
  | FIter a _ => PRef a
  end.

(** Two stores that hold the same document, and the same answers of the
    predicate, under every frame of a suspended walk. *)
Definition same_for (value_processor : predicate) (h1 h2 : heap) (g : generator) : Prop :=
  forall f, In f g ->
    same_document h1 h2 (frame_root f) /\ same_answers value_processor h1 h2 (frame_root f).

(** [nested_heap] after something else has been allocated. *)
Definition nested_heap_later : heap := nested_heap ++ [OList [PInt 7]].

(** ** Vocabulary of the statements about the driver *)

(** [context[key] = { "value": value }] on its own. *)
Definition store_record (h : heap) (context : addr) (key : pykey) (value : pyval) : option heap :=
  let '(h0, record) := new_dict h [(str "value", value)] in
  setitem h0 context key record.

(** Both lookups of a leaf, one after the other: the world and the driver
    they leave, [google_search] and [google_img_search]. *)
Definition lookups (B : browser) (Sv : services) (retries : nat) (w : world B) (driver : nat)
    (value : pystr) : option (world B * nat * list pyval * list pyval) :=
  '(w1, driver1, google_search) ← google_search_loop B Sv retries w driver value;
  '(w2, driver2, google_img_search) ←
      google_img_search_loop B Sv retries w1 driver1 (Some google_search) value;
  Some (w2, driver2, google_search, google_img_search).

(** [d[k] = v] when [c] holds. *)
Definition set_if (c : bool) (k : pystr) (v : pyval) (kvs : list (pystr * pyval))
  : list (pystr * pyval) :=
  if c then dict_set kvs k v else kvs.

(** What [context[key]["pinyin"]] is set to, when it is set. *)
Definition pinyin_field (Sv : services) (s : pystr) : option pyval :=
  if bool_decide (0 < length (strip (strip_ascii s)))%nat
  then PStr <$> pinyin_get Sv (strip_ascii s)
  else None.

(** The library calls of the body return on the leaf [s]: [pinyin.get]
    where the body calls it. *)
Definition pinyin_returns (Sv : services) (s : pystr) : Prop :=
  strip (strip_ascii s) <> [] -> is_Some (pinyin_get Sv (strip_ascii s)).

(** The entries of the record of the [j]-th leaf [s] once the body has
    returned, given the results of the lookups when they were made. *)
Definition record_fields (Sv : services) (translation_response : option (list pystr))
    (j : nat) (s : pystr) (searches : option (list pyval * list pyval))
  : list (pystr * pyval) :=
  let with_pinyin :=
    match pinyin_field Sv s with
    | Some p => dict_set [(str "value", PStr s)] (str "pinyin") p
    | None => [(str "value", PStr s)]
    end in
  let with_searches :=
    match searches with
    | Some (google_search, google_img_search) =>
        set_if (bool_decide (0 < length google_img_search)%nat)
          (str "google_image") (first google_img_search)
          (set_if (bool_decide (0 < length google_search)%nat)
             (str "knowledge_graph") (first google_search) with_pinyin)
    | None => with_pinyin
    end in
  match translation_response with
  | Some translations =>
      match translations !! j with
      | Some t => dict_set with_searches (str "translation") (PStr t)
      | None => with_searches
      end
  | None => with_searches
  end.

(** The record found at [context[key]], if there is one. *)
Definition record_at (h : heap) (context : addr) (key : pykey) : option (list (pystr * pyval)) :=
  match getitem h context key with
  | Some (PRef r) =>
      match h !! r with
      | Some (ODict kvs) => Some kvs
      | _ => None
      end
  | _ => None
  end.

(** [context[key][f]], if it is there. *)
Definition field (h : heap) (context : addr) (key : pykey) (f : pystr) : option pyval :=
  kvs ← record_at h context key; dict_get kvs f.

(** The container [o] after [o[key] = v]. *)
Definition replace_entry (o : pyobj) (key : pykey) (v : pyval) : pyobj :=
  match o, key with
  | OList xs, KIdx i => OList (<[i := v]> xs)
  | ODict kvs, KStr k => ODict (dict_set kvs k v)
  | _, _ => o
  end.

(** What the lookups contribute to the record of leaf [s] in the container
    at [context]: nothing when the container has no [price]. *)
Definition searches_of (B : browser) (Sv : services) (retries : nat) (st : state B)
    (context : addr) (s : pystr) : option (list pyval * list pyval) :=
  if contains (st_heap B st) context (str "price")
  then '(_, _, gs, gis) ← lookups B Sv retries (st_world B st) (st_driver B st) s; Some (gs, gis)
  else None.

(** ** Sample browsers and services *)

(** A browser whose sessions each stand a number of commands and are lost
    after that; the world lists what every session launched so far has
    left.  A command on a lost session raises the session-invalid signal. *)
Definition brittle_command (w : list nat) (d : nat) : list nat * bool :=
  match w !! d with
  | Some (S n) => (<[d := n]> w, true)
  | _ => (w, false)
  end.

Definition brittle_call {A} (w : list nat) (d : nat) (result : A) : list nat * outcome A :=
  let '(w', ok) := brittle_command w d in
  (w', if ok then Returns result else Raises InvalidSessionIdException).

(** Every new session stands [fresh] commands; an element remembers the
    session it was found in. *)
Definition brittle (fresh : nat) : browser := {|
  world := list nat;
  element := nat;
  new_driver := fun w => (w ++ [fresh], length w);
  driver_get := fun w d url => brittle_call w d tt;
  find_element_by_xpath := fun w d xpath => brittle_call w d d;
  get_attribute := fun w el name => brittle_call w el (PStr (str "https://img.example/1"));
  getattr := fun w el name => brittle_call w el (PStr (str "Peking duck"));
|}.

(** A translation service that answers every text with its position. *)
Definition numbering : services := {|
  translate_text := fun contents => Some (imap (fun i _ => str "T" ++ [48 + Z.of_nat i]) contents);
  pinyin_get := fun s => Some (str "pin yin");
  quote := fun s => Some s;
|}.

(** The same, with the translation request failing. *)
Definition untranslated : services := {|
  translate_text := fun contents => None;
  pinyin_get := pinyin_get numbering;
  quote := quote numbering;
|}.

(** Services with calls that raise: a [quote] that cannot encode a
    surrogate, and a [pinyin.get] that fails on U+343B. *)
Definition is_surrogate (c : Z) : bool := (0xd800 <=? c) && (c <=? 0xdfff).
Definition fussy : services := {|
  translate_text := translate_text numbering;
  pinyin_get := fun s => if existsb (Z.eqb 0x343b) s then None else Some (str "pin yin");
  quote := fun s => if existsb is_surrogate s then None else Some s;
|}.

(** The dict [{"name": "\ud800", "price": 88}] and the list [["\u343b"]]. *)
Definition surrogate_heap : list pyobj :=
  [ODict [(str "name", PStr [0xd800]); (str "price", PInt 88)]].
Definition rare_heap : list pyobj := [OList [PStr [0x343b]]].

(** The pinyin projection in the words of the specification: the value
    without its characters that are ASCII or on the allow-list, trimmed. *)
Definition projection_spec (s : pystr) : pystr :=
  strip (List.filter
           (fun c => negb ((c <? 128) || int_in c [0x2018; 0xff08; 0xff09; 0xff0c])) s).

(** A browser that also counts the pages it was asked to load. *)
Definition counting (B : browser) : browser := {|
  world := world B * nat;
  element := element B;
  new_driver := fun w => let '(w', d) := new_driver B w.1 in ((w', w.2), d);
  driver_get := fun w d url => let '(w', r) := driver_get B w.1 d url in ((w', S w.2), r);
  find_element_by_xpath := fun w d xpath =>
    let '(w', r) := find_element_by_xpath B w.1 d xpath in ((w', w.2), r);
  get_attribute := fun w el name => let '(w', r) := get_attribute B w.1 el name in ((w', w.2), r);
  getattr := fun w el name => let '(w', r) := getattr B w.1 el name in ((w', w.2), r);
|}.

(** The number of pages asked for so far. *)
Definition navigations {B : browser} (st : state (counting B)) : nat :=
  (st_world (counting B) st).2.

(** A browser that also keeps the addresses of the pages it was asked to
    load, in the order of the calls. *)
Definition logging (B : browser) : browser := {|
  world := world B * list (list Z);
  element := element B;
  new_driver := fun w => let '(w', d) := new_driver B w.1 in ((w', w.2), d);
  driver_get := fun w d url =>
    let '(w', r) := driver_get B w.1 d url in ((w', w.2 ++ [url]), r);
  find_element_by_xpath := fun w d xpath =>
    let '(w', r) := find_element_by_xpath B w.1 d xpath in ((w', w.2), r);
  get_attribute := fun w el name => let '(w', r) := get_attribute B w.1 el name in ((w', w.2), r);
  getattr := fun w el name => let '(w', r) := getattr B w.1 el name in ((w', w.2), r);
|}.

(** The pages asked for so far. *)
Definition pages {B : browser} (st : state (logging B)) : list (list Z) :=
  (st_world (logging B) st).2.

(** A list with one leaf, "（）、". *)
Definition punctuation_heap : list pyobj := [OList [PStr parens_ideographic_comma]].

(** The list [["price", "你好"]] and the dict [{"name": "你好", "price": 88}]. *)
Definition price_list_heap : list pyobj := [OList [PStr (str "price"); PStr ni_hao]].
Definition price_dict_heap : list pyobj :=
  [ODict [(str "name", PStr ni_hao); (str "price", PInt 88)]].

(** ** Vocabulary of the statements about the two passes *)

(** Where a triple was found: the container and the key. *)
Definition position (t : triple) : nat * pykey := (t.2, t.1.2).

(** A value that refers to nothing beyond the first [n] objects. *)
Definition closed_value (n : nat) (v : pyval) : Prop :=
  match v with
  | PRef a => (a < n)%nat
  | _ => True
  end.

(** A store whose objects refer to objects of the store only. *)
Definition closed_store (h : list pyobj) : Prop :=
  forall a o k x, h !! a = Some o -> In (k, x) (container_items o) ->
    closed_value (length h) x.

(** A store whose dicts have every key once. *)
Definition unique_keys (h : list pyobj) : Prop :=
  forall a o, h !! a = Some o -> NoDup (map fst (container_items o)).

(** A document as [json.load] builds it: under [root] no object refers
    outside the store, no dict repeats a key, and a walk that selects
    everything ends and comes to every entry once, that is, no list or dict
    is referred to from two places. *)
Definition document (h : list pyobj) (root : pyval) : Prop :=
  closed_value (length h) root /\ closed_store h /\ unique_keys h
  /\ exists depth everything,
       traverse_json depth h root select_all = Some everything
       /\ NoDup (map position everything).

(** The library calls the body makes at the selected leaves of the store
    [h0] return: [pinyin.get] where the projection of the leaf is not
    empty, and both lookups, whatever state the browser is in by then,
    where the container of the leaf has [price]. *)
Definition services_return (B : browser) (Sv : services) (retries : nat) (h0 : list pyobj)
  : Prop :=
  forall a i k s, slot h0 a i = Some (k, PStr s) -> is_ascii s = false ->
    pinyin_returns Sv s
    /\ (contains h0 a (str "price") = true ->
        forall (w : world B) d, is_Some (lookups B Sv retries w d s)).

(** How the store [h] of a mutation pass that has visited the triples
    [visited] relates to the store [h0] the pass started from: the
    containers of [h0] are still there with the keys they had, every entry
    not visited yet is as it was, every visited triple is a selected leaf
    of [h0], and every visited leaf has its record, a dict allocated after
    [h0], with the entries of its position, those of the lookups among them
    only if the leaf's container in [h0] has [price]. *)
Record lockstep (Sv : services) (tr : option (list pystr)) (h0 h : list pyobj)
    (visited : list triple) : Prop := {
  lock_length : (length h0 <= length h)%nat;
  lock_leaves : forall m v k a, visited !! m = Some (v, k, a) ->
    exists i s, v = PStr s /\ is_ascii s = false /\ slot h0 a i = Some (k, PStr s);
  lock_keys : forall a o0, h0 !! a = Some o0 ->
    exists o, h !! a = Some o
      /\ map fst (container_items o) = map fst (container_items o0);
  lock_slots : forall a i k x, slot h0 a i = Some (k, x) ->
    ~ In (a, k) (map position visited) -> slot h a i = Some (k, x);
  lock_records : forall m s k a, visited !! m = Some (PStr s, k, a) ->
    exists searches r,
      getitem h a k = Some (PRef r) /\ (length h0 <= r)%nat
      /\ h !! r = Some (ODict (record_fields Sv tr m s searches))
      /\ (contains h0 a (str "price") = false -> searches = None);
}.

(** What a walk that selects everything yields for a container whose
    entries have been walked already. *)
Definition blocks (a : nat) (entries : list (pykey * pyval))
    (unders : list (list (pyval * pykey * nat))) : list (pyval * pykey * nat) :=
  concat (zip_with (fun kx under => (kx.2, kx.1, a) :: under) entries unders).

(** What loading a value on top of the store [before] establishes: the
    store has only grown, it is closed and without repeated keys, and a
    walk from the value that selects everything ends, comes to every entry
    once, and only to entries of the new objects. *)
Definition loaded (before h : list pyobj) (v : pyval) : Prop :=
  (exists ext, h = before ++ ext)
  /\ closed_store h /\ unique_keys h /\ closed_value (length h) v
  /\ exists depth everything,
       traverse_json depth h v select_all = Some everything
       /\ NoDup (map position everything)
       /\ Forall (fun t : pyval * pykey * nat => (length before <= t.2 < length h)%nat)
            everything.

(** The same for values loaded one after the other. *)
Definition loaded_seq (before h : list pyobj) (vs : list pyval) : Prop :=
  (exists ext, h = before ++ ext)
  /\ closed_store h /\ unique_keys h /\ Forall (closed_value (length h)) vs
  /\ exists depth unders,
       Forall2 (fun v under => traverse_json depth h v select_all = Some under) vs unders
       /\ NoDup (map position (concat unders))
       /\ Forall (fun t : pyval * pykey * nat => (length before <= t.2 < length h)%nat)
            (concat unders).

(** A JSON text none of whose objects repeats a member name. *)
Fixpoint unique_names (t : json) : Prop :=
  match t with
  | JArray elems =>
      (fix all l :=
         match l with
         | [] => True
         | t :: r => unique_names t /\ all r
         end) elems
  | JObject members =>
      NoDup (map fst members)
      /\ (fix all l :=
            match l with
            | [] => True
            | kt :: r => unique_names (snd kt) /\ all r
            end) members
  | _ => True
  end.

(** A browser that always answers. *)
Definition steady : browser := {|
  world := unit;
  element := unit;
  new_driver := fun w => (w, 0%nat);
  driver_get := fun w d url => (w, Returns tt);
  find_element_by_xpath := fun w d xpath => (w, Returns tt);
  get_attribute := fun w el name => (w, Returns (PStr (str "https://img.example/1")));
  getattr := fun w el name => (w, Returns (PStr (str "Peking duck")));
|}.

(** The menu [{"items": [{"name": "烤鸭", "price": 88}, {"name": "烤鸭"}, "你好"]}]:
    the same name twice, and a third leaf. *)
Definition roast_duck : pystr := [0x70e4; 0x9e2d].
Definition sample_menu : json :=
  JObject [(str "items",
    JArray [ JObject [(str "name", JString roast_duck); (str "price", JInt 88)];
             JObject [(str "name", JString roast_duck)];
             JString ni_hao ])].

(** [sample_menu] as [json.load] leaves it in an empty store: the two
    dishes at addresses 0 and 1, the list at 2, the menu at 3. *)
Definition sample_heap : list pyobj := (load sample_menu []).1.
Definition sample_root : pyval := (load sample_menu []).2.

(** ** Vocabulary of further statements *)

(** A list that holds itself: [l = []; l.append(l)]. *)
Definition self_heap : list pyobj := [OList [PRef 0%nat]].

(** A list of plain ASCII strings. *)
Definition ascii_heap : list pyobj := [OList [PStr (str "ab"); PStr (str "cd")]].

(** The keys a record can have, in the order the body sets them. *)
Definition record_keys : list (list Z) :=
  [str "value"; str "pinyin"; str "knowledge_graph"; str "google_image"; str "translation"].

(** The selected string a JSON value is, if it is one. *)
Definition own_leaf (t : json) : list (list Z) :=
  match t with
  | JString s => if is_ascii s then [] else [s]
  | _ => []
  end.

(** The selected strings under a JSON value, in the order of the text;
    the value itself is not counted. *)
Fixpoint leaves (t : json) : list (list Z) :=
  match t with
  | JArray elems =>
      (fix go l :=
         match l with
         | [] => []
         | c :: r => own_leaf c ++ leaves c ++ go r
         end) elems
  | JObject members =>
      (fix go l :=
         match l with
         | [] => []
         | kc :: r => own_leaf (snd kc) ++ leaves (snd kc) ++ go r
         end) members
  | _ => []
  end.


(** * Properties *)

(** ** Strings and the predicate *)

Lemma int_in_spec x l : int_in x l = true <-> In x l.
Proof.
  unfold int_in. rewrite existsb_exists. split.
  - intros (y & Hy & Heq). apply Z.eqb_eq in Heq. now subst.
  - intros H. exists x. split; [done | apply Z.eqb_refl].
Qed.

Lemma int_in_false x l : int_in x l = false <-> ~ In x l.
Proof.
  rewrite <- int_in_spec. destruct (int_in x l); split; congruence.
Qed.

Lemma is_ascii_false s :
  is_ascii s = false <-> exists c, In c s /\ ~ c < 128 /\ ~ In c ASCII_BUT_UNICODE.
Proof.
  unfold is_ascii. induction s as [|c s IH]; cbn [forallb].
  - split; [discriminate | intros (c & [] & _)].
  - rewrite andb_false_iff, IH, orb_false_iff, Z.ltb_ge, int_in_false. split.
    + intros [[Hc Hn] | (d & Hd & H)].
      * exists c. split; [now left | split; [lia | done]].
      * exists d. split; [now right | done].
    + intros (d & [-> | Hd] & Hlt & Hn).
      * left. split; [lia | done].
      * right. exists d. done.
Qed.

(** C3: [valid_translate_value] holds exactly of the strings that have a
    character neither below 128 nor on the allow-list (U+2018, U+FF08,
    U+FF09, U+FF0C), whatever key and container come with the value; of
    "Hello", "你好", "你好, world（ok）" and "123" it selects the second and the
    third only. *)
Theorem valid_translate_value_spec :
  (forall h value key context,
      valid_translate_value h value key context = true <-> selected_spec value)
  /\ map (fun s => valid_translate_value [] (PStr s) (KIdx 0) 0%nat)
         [hello; ni_hao; ni_hao_world; digits]
     = [false; true; true; false].
Proof.
  split; [| reflexivity].
  intros h value key context. unfold selected_spec. split.
  - destruct value; simpl; try discriminate.
    destruct (is_ascii s) eqn:E; simpl; [discriminate |]. intros _.
    exists s. split; [done |]. now apply is_ascii_false.
  - intros (s & -> & H). simpl.
    apply is_ascii_false in H. now rewrite H.
Qed.

(** ** The walker on a store that stays as it is *)


Lemma for_yield_ext {A} (f g : A -> option (list triple)) l :
  (forall x, In x l -> f x = g x) -> for_yield f l = for_yield g l.
Proof.
  induction l as [|x l IH]; intros H; simpl; [done |].
  rewrite (H x) by now left. rewrite IH; [done |].
  intros y Hy. apply H. now right.
Qed.

Lemma for_entries_select_all recur recur_all vp (every : predicate) h a entries :
  (forall x k, every h x k a = true) ->
  (forall x, recur x = List.filter (selects vp h) <$> recur_all x) ->
  for_entries recur vp h a entries =
    List.filter (selects vp h) <$> for_entries recur_all every h a entries.
Proof.
  intros Hall Hrec. unfold for_entries.
  induction entries as [|[k x] entries IH]; simpl; [done |].
  rewrite Hrec, Hall. destruct (recur_all x) as [sub|]; simpl; [| done].
  rewrite IH. clear IH. destruct (for_yield _ entries) as [ys|]; simpl; [| done].
  f_equal. rewrite !List.filter_app. simpl. unfold selects. simpl.
  now destruct (vp h x k a); rewrite <- app_assoc.
Qed.

Lemma traverse_json_select_all depth h j vp :
  traverse_json depth h j vp =
    List.filter (selects vp h) <$> traverse_json depth h j select_all.
Proof.
  revert j. induction depth as [|d IH]; intros j; simpl; [done |].
  destruct j; try done.
  destruct (h !! a) as [[xs|kvs]|]; try done;
    now apply for_entries_select_all.
Qed.

Lemma slot_items h a o i kx :
  h !! a = Some o -> container_items o !! i = Some kx -> slot h a i = Some kx.
Proof. intros Ha Hi. unfold slot. now rewrite Ha. Qed.

Lemma for_entries_In recur vp h a entries ys x k b (P : triple -> Prop) :
  (forall kx, In kx entries -> P (kx.2, kx.1, a)) ->
  (forall y sub t, recur y = Some sub -> In t sub -> P t) ->
  for_entries recur vp h a entries = Some ys -> In (x, k, b) ys -> P (x, k, b).
Proof.
  intros Hent Hrec. unfold for_entries. revert ys.
  induction entries as [|[k' x'] entries IH]; simpl; intros ys Hys Hin.
  - injection Hys as <-. destruct Hin.
  - destruct (recur x') as [sub|] eqn:Hsub; simpl in Hys; [| done].
    destruct (for_yield _ entries) as [ys'|] eqn:Hys'; simpl in Hys; [| done].
    injection Hys as <-.
    rewrite !in_app_iff in Hin. destruct Hin as [[Hin | Hin] | Hin].
    + destruct (vp h x' k' a); [| destruct Hin].
      destruct Hin as [<- | []]. apply (Hent (k', x')). now left.
    + eapply Hrec; eauto.
    + eapply IH; eauto. intros kx Hkx. apply Hent. now right.
Qed.

Lemma traverse_json_In depth h j vp ys x k a :
  traverse_json depth h j vp = Some ys -> In (x, k, a) ys ->
  exists i, slot h a i = Some (k, x).
Proof.
  revert j ys x k a. induction depth as [|d IH]; intros j ys x k a; simpl; [done |].
  destruct j; try (intros [= <-] []).
  destruct (h !! a0) as [o|] eqn:Ha; [| intros [= <-] []].
  assert (Hent : forall kx, In kx (container_items o) ->
            exists i, slot h a0 i = Some (kx.1, kx.2)).
  { intros [k' x'] Hin. apply list_elem_of_In, list_elem_of_lookup in Hin as [i Hi].
    exists i. eapply slot_items; eauto. }
  pose (P := fun t : triple => exists i, slot h t.2 i = Some (t.1.2, t.1.1)).
  assert (Hrec : forall y sub t, traverse_json d h y vp = Some sub -> In t sub -> P t).
  { intros y sub [[x' k'] b]. apply IH. }
  destruct o as [xs|kvs]; intros Hys Hin.
  - exact (for_entries_In _ _ _ _ _ _ _ _ _ P Hent Hrec Hys Hin).
  - exact (for_entries_In _ _ _ _ _ _ _ _ _ P Hent Hrec Hys Hin).
Qed.

(** ** The generator against the recursive reading *)

Lemma fmap_app_nil (o : option (list triple)) : (([] : list triple) ++.) <$> o = o.
Proof. now destruct o. Qed.

Lemma fmap_app_app (ys1 ys2 : list triple) (o : option (list triple)) :
  (ys1 ++.) <$> ((ys2 ++.) <$> o) = ((ys1 ++ ys2) ++.) <$> o.
Proof. destruct o; simpl; [| done]. now rewrite app_assoc. Qed.

Lemma drop_cons_inv {A} (l : list A) i x r :
  drop i l = x :: r -> l !! i = Some x /\ drop (S i) l = r.
Proof.
  intros H. assert (Hx : l !! i = Some x).
  { pose proof (lookup_drop l i 0) as E. rewrite H in E. simpl in E.
    now rewrite Nat.add_0_r in E. }
  split; [done |]. apply drop_S in Hx. congruence.
Qed.

Lemma drop_nil_inv {A} (l : list A) i : drop i l = [] -> l !! i = None.
Proof.
  intros H. pose proof (lookup_drop l i 0) as E. rewrite H in E. simpl in E.
  now rewrite Nat.add_0_r in E.
Qed.

(** The [for] loop of a frame, from entry [i] on. *)
Lemma drain_iter recur vp h a o :
  h !! a = Some o ->
  (forall y sub, recur y = Some sub ->
     exists n, forall rest fuel,
       drain (n + fuel) vp h (FEnter y :: rest) = (sub ++.) <$> drain fuel vp h rest) ->
  forall entries i ys,
    drop i (container_items o) = entries ->
    for_entries recur vp h a entries = Some ys ->
    exists n, forall rest fuel,
      drain (n + fuel) vp h (FIter a i :: rest) = (ys ++.) <$> drain fuel vp h rest.
Proof.
  intros Ha Hrec. unfold for_entries.
  induction entries as [|[k x] entries IH]; intros i ys Hdrop Hys; simpl in Hys.
  - injection Hys as <-. exists 1%nat. intros rest fuel. simpl.
    unfold slot. rewrite Ha, (drop_nil_inv _ _ Hdrop). now rewrite fmap_app_nil.
  - destruct (recur x) as [sub|] eqn:Hsub; simpl in Hys; [| done].
    destruct (for_yield _ entries) as [ys'|] eqn:Hys'; simpl in Hys; [| done].
    injection Hys as <-.
    apply drop_cons_inv in Hdrop as [Hi Hdrop].
    destruct (Hrec _ _ Hsub) as [n1 H1].
    destruct (IH (S i) ys' Hdrop eq_refl) as [n2 H2].
    exists (S (n1 + n2)). intros rest fuel. simpl.
    unfold slot. rewrite Ha, Hi. simpl.
    replace (n1 + n2 + fuel)%nat with (n1 + (n2 + fuel))%nat by lia.
    destruct (vp h x k a); simpl; rewrite H1, H2, fmap_app_app;
      now destruct (drain fuel vp h rest).
Qed.

(** Exhausting the generator of a call yields what the recursive reading
    says, and then goes on with whatever called it. *)
Lemma drain_enter depth h j vp ys :
  traverse_json depth h j vp = Some ys ->
  exists n, forall rest fuel,
    drain (n + fuel) vp h (FEnter j :: rest) = (ys ++.) <$> drain fuel vp h rest.
Proof.
  revert j ys. induction depth as [|d IH]; intros j ys; simpl; [done |].
  assert (Hskip : forall ys', Some [] = Some ys' ->
            (forall rest, gen_step vp h (FEnter j :: rest) = Silent rest) ->
            exists n, forall rest fuel,
              drain (n + fuel) vp h (FEnter j :: rest) = (ys' ++.) <$> drain fuel vp h rest).
  { intros ys' [= <-] Hstep. exists 1%nat. intros rest fuel. cbn [drain Nat.add].
    rewrite Hstep. now rewrite fmap_app_nil. }
  destruct j; try (intros H; now apply Hskip).
  destruct (h !! a) as [o|] eqn:Ha.
  - intros Hys.
    assert (Hfor : for_entries (fun x => traverse_json d h x vp) vp h a
                     (container_items o) = Some ys) by now destruct o.
    destruct (drain_iter _ vp h a o Ha (fun y sub => IH y sub) _ 0%nat ys eq_refl Hfor)
      as [n Hn].
    exists (S n). intros rest fuel. simpl. rewrite Ha. apply Hn.
  - intros H. apply Hskip; [done |]. intros rest. simpl. now rewrite Ha.
Qed.

Lemma drain_traverse_json depth h j vp ys :
  traverse_json depth h j vp = Some ys ->
  exists n, forall fuel, drain (n + fuel) vp h (traverse_json_gen j) = Some ys.
Proof.
  intros H. destruct (drain_enter _ _ _ _ _ H) as [n Hn].
  exists (S n). intros fuel. unfold traverse_json_gen.
  replace (S n + fuel)%nat with (n + S fuel)%nat by lia.
  rewrite Hn. simpl. now rewrite app_nil_r.
Qed.

(** ** Two walks of one document *)

Lemma same_document_entry h1 h2 a o k x :
  h1 !! a = Some o -> In (k, x) (container_items o) ->
  same_document h1 h2 (PRef a) -> same_document h1 h2 x.
Proof. intros Ha Hin H b Hb. apply H. eapply reach_entry; eauto. Qed.

Lemma same_answers_entry vp h1 h2 a o k x :
  h1 !! a = Some o -> In (k, x) (container_items o) ->
  same_answers vp h1 h2 (PRef a) -> same_answers vp h1 h2 x.
Proof.
  intros Ha Hin H b o' k' x' Hb. apply H. eapply reach_entry; eauto.
Qed.

Lemma traverse_json_same depth h1 h2 j vp :
  same_document h1 h2 j -> same_answers vp h1 h2 j ->
  traverse_json depth h2 j vp = traverse_json depth h1 j vp.
Proof.
  revert j. induction depth as [|d IH]; intros j Hdoc Hvp; simpl; [done |].
  destruct j; try done.
  rewrite (Hdoc a) by constructor.
  destruct (h1 !! a) as [o|] eqn:Ha; [| done].
  assert (Hfor : for_entries (fun x => traverse_json d h2 x vp) vp h2 a (container_items o)
               = for_entries (fun x => traverse_json d h1 x vp) vp h1 a (container_items o)).
  { apply for_yield_ext. intros [k x] Hin. simpl.
    rewrite (Hvp a o k x (reach_root _ _) Ha Hin).
    rewrite IH; [done | |].
    - eapply same_document_entry; eauto.
    - eapply same_answers_entry; eauto. }
  now destruct o.
Qed.

Lemma gen_step_same vp h1 h2 g :
  same_for vp h1 h2 g -> gen_step vp h2 g = gen_step vp h1 g.
Proof.
  intros H. destruct g as [|[j|a i] rest]; simpl; [done | |].
  - destruct j; try done.
    destruct (H (FEnter (PRef a))) as [Hdoc _]; [now left |].
    now rewrite (Hdoc a) by constructor.
  - destruct (H (FIter a i)) as [Hdoc Hvp]; [now left |].
    unfold slot. rewrite (Hdoc a) by constructor.
    destruct (h1 !! a) as [o|] eqn:Ha; [| done].
    destruct (container_items o !! i) as [[k x]|] eqn:Hi; [| done].
    rewrite (Hvp a o k x); [done | constructor | done |].
    apply list_elem_of_In, list_elem_of_lookup. eauto.
Qed.

Lemma same_for_tail vp h1 h2 f g : same_for vp h1 h2 (f :: g) -> same_for vp h1 h2 g.
Proof. intros H f' Hf'. apply H. now right. Qed.

Lemma same_for_step vp h1 h2 g g' :
  same_for vp h1 h2 g ->
  (gen_step vp h1 g = Silent g' \/ exists t, gen_step vp h1 g = Yield t g') ->
  same_for vp h1 h2 g'.
Proof.
  intros H Hstep.
  assert (Hg' : (exists f, g = f :: g')
             \/ (exists a, g = FEnter (PRef a) :: tail g' /\ g' = FIter a 0 :: tail g')
             \/ (exists a i o k x, g = FIter a i :: tail (tail g')
                   /\ h1 !! a = Some o /\ In (k, x) (container_items o)
                   /\ g' = FEnter x :: FIter a (S i) :: tail (tail g'))).
  { destruct g as [|[j|a i] rest]; simpl in Hstep.
    - destruct Hstep as [|[]]; done.
    - destruct j; try (left; destruct Hstep as [[= <-]|[? [=]]]; eauto).
      destruct (h1 !! a).
      + right; left. destruct Hstep as [[= <-]|[? [=]]]. eauto.
      + left. destruct Hstep as [[= <-]|[? [=]]]. eauto.
    - unfold slot in Hstep. destruct (h1 !! a) as [o|] eqn:Ha.
      + destruct (container_items o !! i) as [[k x]|] eqn:Hi.
        * right; right. exists a, i, o, k, x.
          assert (In (k, x) (container_items o))
            by (apply list_elem_of_In, list_elem_of_lookup; eauto).
          destruct (vp h1 x k a); destruct Hstep as [[= <-]|[? [= _ <-]]]; done.
        * left. destruct Hstep as [[= <-]|[? [=]]]. eauto.
      + left. destruct Hstep as [[= <-]|[? [=]]]. eauto. }
  destruct Hg' as [[f ->] | [(a & -> & ->) | (a & i & o & k & x & -> & Ha & Hin & ->)]].
  - eapply same_for_tail; eauto.
  - intros f [<- | Hf]; [apply (H (FEnter (PRef a))); now left |].
    apply H. now right.
  - destruct (H (FIter a i)) as [Hdoc Hvp]; [now left |].
    intros f [<- | [<- | Hf]]; simpl.
    + split; [eapply same_document_entry | eapply same_answers_entry]; eauto.
    + done.
    + apply H. now right.
Qed.

Lemma drain_same vp h1 h2 fuel1 :
  forall fuel2 g l1 l2,
    same_for vp h1 h2 g ->
    drain fuel1 vp h1 g = Some l1 -> drain fuel2 vp h2 g = Some l2 -> l1 = l2.
Proof.
  induction fuel1 as [|n1 IH]; intros [|n2] g l1 l2 Hsame; simpl; try done.
  rewrite (gen_step_same _ _ _ _ Hsame).
  destruct (gen_step vp h1 g) as [|g'|t g'] eqn:Hstep.
  - congruence.
  - apply IH. eapply same_for_step; eauto.
  - destruct (drain n1 vp h1 g') as [l1'|] eqn:E1; simpl; [| done].
    destruct (drain n2 vp h2 g') as [l2'|] eqn:E2; simpl; [| done].
    intros [= <-] [= <-]. f_equal. eapply IH; [| exact E1 | exact E2].
    eapply same_for_step; eauto.
Qed.

Lemma drain_same_fuel vp h1 h2 fuel :
  forall g, same_for vp h1 h2 g -> drain fuel vp h2 g = drain fuel vp h1 g.
Proof.
  induction fuel as [|n IH]; intros g Hsame; simpl; [done |].
  rewrite (gen_step_same _ _ _ _ Hsame).
  destruct (gen_step vp h1 g) as [|g'|t g'] eqn:Hstep; [done | |].
  - apply IH. eapply same_for_step; eauto.
  - rewrite IH; [done |]. eapply same_for_step; eauto.
Qed.

(** C1: two walks of a document that has not been modified in between yield
    the same sequence of (value, key, container) triples.  The two stores
    may differ outside the document; the walks may be scheduled differently
    (their fuels differ). *)
Theorem walker_deterministic depth fuel1 fuel2 h1 h2 j vp :
  same_document h1 h2 j -> same_answers vp h1 h2 j ->
  traverse_json depth h2 j vp = traverse_json depth h1 j vp
  /\ drain fuel1 vp h2 (traverse_json_gen j) = drain fuel1 vp h1 (traverse_json_gen j)
  /\ (forall l1 l2,
        drain fuel1 vp h1 (traverse_json_gen j) = Some l1 ->
        drain fuel2 vp h2 (traverse_json_gen j) = Some l2 ->
        l1 = l2).
Proof.
  intros Hdoc Hvp.
  assert (Hsame : same_for vp h1 h2 (traverse_json_gen j)) by (intros f [<- | []]; done).
  split; [now apply traverse_json_same |].
  split; [now apply drain_same_fuel |].
  intros l1 l2. now apply drain_same.
Qed.

Lemma nested_heap_reach a : reach nested_heap (PRef 1%nat) a -> a = 1%nat \/ a = 0%nat.
Proof.
  intros H. inversion H as [|a' o k x b Ha Hin Hx]; subst; [now left |].
  injection Ha as <-. simpl in Hin.
  destruct Hin as [[= <- <-] | [[= <- <-] | [[= <- <-] | []]]]; try solve [inversion Hx].
  inversion Hx as [|a' o k x b Ha Hin Hx']; subst; [now right |].
  injection Ha as <-. simpl in Hin.
  destruct Hin as [[= <- <-] | []]. inversion Hx'.
Qed.

Lemma nested_heap_later_same : same_document nested_heap nested_heap_later (PRef 1%nat).
Proof. intros a [-> | ->]%nested_heap_reach; reflexivity. Qed.

Lemma walker_deterministic_witness :
  traverse_json 3 nested_heap_later (PRef 1%nat) valid_translate_value
    = traverse_json 3 nested_heap (PRef 1%nat) valid_translate_value
  /\ drain 10 valid_translate_value nested_heap_later (traverse_json_gen (PRef 1%nat))
     = drain 10 valid_translate_value nested_heap (traverse_json_gen (PRef 1%nat))
  /\ (forall l1 l2,
        drain 10 valid_translate_value nested_heap (traverse_json_gen (PRef 1%nat)) = Some l1 ->
        drain 12 valid_translate_value nested_heap_later (traverse_json_gen (PRef 1%nat)) = Some l2 ->
        l1 = l2).
Proof.
  apply (walker_deterministic 3 10 12 nested_heap nested_heap_later (PRef 1%nat)
           valid_translate_value).
  - exact nested_heap_later_same.
  - intros a o k x _ _ _. reflexivity.
Defined.

(** ** What the walker visits, and in which order *)

Lemma enumerate_lookup xs i k x :
  enumerate xs !! i = Some (k, x) <-> k = KIdx i /\ xs !! i = Some x.
Proof.
  unfold enumerate. rewrite list_lookup_imap.
  destruct (xs !! i) as [y|]; simpl; split.
  - intros [= <- <-]. done.
  - intros [-> [= ->]]. done.
  - done.
  - intros [_ [=]].
Qed.



(** C9: a walk from a scalar root yields nothing, and whatever a walk
    yields is an entry of a list or dict of the store under the key it is
    yielded with; the root itself is never yielded. *)
Theorem traverse_json_yields_entries_only depth h j vp :
  (is_container j = false ->
     traverse_json (S depth) h j vp = Some []
     /\ drain (2 + depth) vp h (traverse_json_gen j) = Some [])
  /\ (forall ys x k a,
        traverse_json depth h j vp = Some ys -> In (x, k, a) ys ->
        exists i, slot h a i = Some (k, x)).
Proof.
  split.
  - intros Hj. destruct j; try discriminate; done.
  - intros ys x k a. apply traverse_json_In.
Qed.

Lemma traverse_json_yields_entries_only_witness :
  traverse_json 3 nested_heap (PStr ni_hao) valid_translate_value = Some []
  /\ drain 4 valid_translate_value nested_heap (traverse_json_gen (PStr ni_hao)) = Some []
  /\ exists i, slot nested_heap 1%nat i = Some (KIdx 2, PStr ni_hao).
Proof.
  destruct (traverse_json_yields_entries_only 2 nested_heap (PStr ni_hao) valid_translate_value)
    as [Hscalar _].
  destruct (traverse_json_yields_entries_only 3 nested_heap (PRef 1%nat) valid_translate_value)
    as [_ Hentries].
  split; [apply Hscalar; reflexivity |].
  split; [apply Hscalar; reflexivity |].
  apply (Hentries [(PStr ni_hao, KIdx 0, 0%nat); (PStr ni_hao, KIdx 2, 1%nat)]).
  - reflexivity.
  - right. now left.
Defined.

(** ** Dicts and the store *)

Lemma dict_get_set kvs k v k' :
  dict_get (dict_set kvs k v) k' = if decide (k = k') then Some v else dict_get kvs k'.
Proof.
  induction kvs as [|[k0 v0] kvs IH]; simpl.
  - destruct (decide (k = k')); done.
  - destruct (decide (k0 = k)) as [-> | Hne]; simpl.
    + destruct (decide (k = k')); done.
    + destruct (decide (k0 = k')) as [-> | Hne'].
      * destruct (decide (k = k')); congruence.
      * apply IH.
Qed.

Lemma dict_set_keys kvs k v :
  is_Some (dict_get kvs k) -> map fst (dict_set kvs k v) = map fst kvs.
Proof.
  induction kvs as [|[k0 v0] kvs IH]; simpl; intros [x Hx]; [done |].
  destruct (decide (k0 = k)) as [-> | Hne]; simpl; [done |].
  f_equal. apply IH. eauto.
Qed.

Lemma getitem_insert_ne h r o context key :
  r <> context -> getitem (<[r := o]> h) context key = getitem h context key.
Proof. intros Hne. unfold getitem. now rewrite list_lookup_insert_ne. Qed.

Lemma contains_insert_ne h r o context s :
  r <> context -> contains (<[r := o]> h) context s = contains h context s.
Proof. intros Hne. unfold contains. now rewrite list_lookup_insert_ne. Qed.

Lemma getitem_is_Some_lt h context key :
  is_Some (getitem h context key) -> (context < length h)%nat.
Proof.
  unfold getitem. intros [v Hv]. destruct (h !! context) eqn:E; [| done].
  eapply lookup_lt_Some; eauto.
Qed.

(** What [context[key] = { "value": value }] does to the store. *)
Lemma store_record_spec h context key value :
  is_Some (getitem h context key) ->
  exists h1,
    store_record h context key value = Some h1
    /\ getitem h1 context key = Some (PRef (length h))
    /\ h1 !! length h = Some (ODict [(str "value", value)])
    /\ length h1 = S (length h)
    /\ (forall a, a <> context -> (a < length h)%nat -> h1 !! a = h !! a).
Proof.
  intros Hget. pose proof (getitem_is_Some_lt _ _ _ Hget) as Hlt.
  destruct Hget as [old Hold]. unfold store_record, new_dict, setitem, getitem in *.
  rewrite lookup_app_l by done.
  destruct (h !! context) as [[xs|kvs]|] eqn:Hc; [| | done]; destruct key as [i|k]; try done.
  - apply lookup_lt_Some in Hold as Hi.
    destruct (decide (i < length xs)%nat); [| lia].
    eexists. split; [reflexivity |].
    rewrite list_lookup_insert_eq by (rewrite length_app; simpl; lia).
    rewrite list_lookup_insert_eq by done.
    rewrite list_lookup_insert_ne by lia.
    rewrite length_insert, length_app, lookup_app_r, Nat.sub_diag by lia. simpl.
    repeat split; [lia |].
    intros a Hne Ha. rewrite list_lookup_insert_ne by done. now apply lookup_app_l.
  - eexists. split; [reflexivity |].
    rewrite list_lookup_insert_eq by (rewrite length_app; simpl; lia).
    rewrite dict_get_set. destruct (decide (k = k)); [| done].
    rewrite list_lookup_insert_ne by lia.
    rewrite length_insert, length_app, lookup_app_r, Nat.sub_diag by lia. simpl.
    repeat split; [lia |].
    intros a Hne Ha. rewrite list_lookup_insert_ne by done. now apply lookup_app_l.
Qed.

(** [context[key][f] = v] once [context[key]] is a record. *)
Lemma set_field_record h1 r context key kvs f v :
  getitem h1 context key = Some (PRef r) -> r <> context -> (r < length h1)%nat ->
  set_field (<[r := ODict kvs]> h1) context key f v
    = Some (<[r := ODict (dict_set kvs f v)]> h1).
Proof.
  intros Hget Hne Hlt. unfold set_field.
  rewrite getitem_insert_ne, Hget by done. unfold setitem.
  rewrite list_lookup_insert_eq by done. now rewrite list_insert_insert_eq.
Qed.

(** ** The body of the mutation loop *)

Section DriverFacts.

Context (B : browser) (Sv : services).

Lemma set_field_if h1 r context key kvs f v (c : Prop) `{Decision c} :
  getitem h1 context key = Some (PRef r) -> r <> context -> (r < length h1)%nat ->
  (if decide c then set_field (<[r := ODict kvs]> h1) context key f v
   else Some (<[r := ODict kvs]> h1))
  = Some (<[r := ODict (set_if (bool_decide c) f v kvs)]> h1).
Proof.
  intros Hget Hne Hlt. unfold set_if.
  destruct (decide c) as [Hc | Hc].
  - rewrite bool_decide_eq_true_2 by done. now apply set_field_record.
  - now rewrite bool_decide_eq_false_2 by done.
Qed.

Lemma set_field_if_first h1 r context key kvs f v (c : Prop) `{Decision c} :
  getitem h1 context key = Some (PRef r) -> r <> context -> h1 !! r = Some (ODict kvs) ->
  (if decide c then set_field h1 context key f v else Some h1)
  = Some (<[r := ODict (set_if (bool_decide c) f v kvs)]> h1).
Proof.
  intros Hget Hne Hrec. apply lookup_lt_Some in Hrec as Hlt.
  rewrite <- (set_field_if h1 r context key kvs f v c) by done.
  now rewrite (list_insert_id h1 r _ Hrec).
Qed.

Lemma set_field_first h1 r context key kvs f v :
  getitem h1 context key = Some (PRef r) -> r <> context -> h1 !! r = Some (ODict kvs) ->
  set_field h1 context key f v = Some (<[r := ODict (dict_set kvs f v)]> h1).
Proof.
  intros Hget Hne Hrec. apply lookup_lt_Some in Hrec as Hlt.
  rewrite <- (set_field_record h1 r context key kvs f v) by done.
  now rewrite (list_insert_id h1 r _ Hrec).
Qed.

(** The body, in one equation: the record is created and stored,
    [pinyin.get] is called when the projection is not empty, the lookups
    are made when the container has [price], and the record ends up with
    the entries [record_fields] lists. *)
Lemma enrich_spec retries tr (st : state B) j s key context h1 :
  is_Some (getitem (st_heap B st) context key) ->
  store_record (st_heap B st) context key (PStr s) = Some h1 ->
  enrich B Sv retries tr st j (PStr s, key, context) =
    _ ← (if decide (0 < length (strip (strip_ascii s)))%nat
         then pinyin_get Sv (strip_ascii s) else Some []);
    if contains h1 context (str "price")
    then '(w, d, gs, gis) ← lookups B Sv retries (st_world B st) (st_driver B st) s;
         Some (State B (<[length (st_heap B st) :=
                           ODict (record_fields Sv tr j s (Some (gs, gis)))]> h1) w d)
    else Some (State B (<[length (st_heap B st) := ODict (record_fields Sv tr j s None)]> h1)
                 (st_world B st) (st_driver B st)).
Proof.
  intros Hsome Hstore.
  destruct (store_record_spec _ _ _ (PStr s) Hsome) as (h1' & E & Hget & Hrec & Hlen & _).
  rewrite Hstore in E. injection E as <-.
  pose proof (getitem_is_Some_lt _ _ _ Hsome) as Hctx.
  set (r := length (st_heap B st)) in *.
  assert (Hne : r <> context) by lia.
  assert (Hlt : (r < length h1)%nat) by lia.
  unfold enrich. unfold store_record in Hstore.
  destruct (new_dict (st_heap B st) [(str "value", PStr s)]) as [h0 record].
  rewrite Hstore. simpl.
  set (with_pinyin := match pinyin_field Sv s with
                      | Some p => dict_set [(str "value", PStr s)] (str "pinyin") p
                      | None => [(str "value", PStr s)]
                      end).
  assert (Hpin : (if decide (0 < length (strip (strip_ascii s)))%nat
                  then p ← pinyin_get Sv (strip_ascii s);
                       set_field h1 context key (str "pinyin") (PStr p)
                  else Some h1)
                 = (_ ← (if decide (0 < length (strip (strip_ascii s)))%nat
                         then pinyin_get Sv (strip_ascii s) else Some []);
                    Some (<[r := ODict with_pinyin]> h1))).
  { unfold with_pinyin, pinyin_field.
    destruct (decide (0 < length (strip (strip_ascii s)))%nat) as [Hc | Hc].
    - rewrite bool_decide_eq_true_2 by done.
      destruct (pinyin_get Sv (strip_ascii s)) as [p|]; cbn [mbind option_bind fmap option_fmap option_map]; [| done].
      now apply set_field_first.
    - rewrite bool_decide_eq_false_2 by done. simpl.
      now rewrite (list_insert_id h1 r _ Hrec). }
  rewrite Hpin.
  destruct (if decide (0 < length (strip (strip_ascii s)))%nat
            then pinyin_get Sv (strip_ascii s) else Some []) as [p|]; simpl; [| done].
  rewrite contains_insert_ne by done.
  assert (Htr : forall (h : list pyobj) kvs,
    h = <[r := ODict kvs]> h1 ->
    match tr with
    | Some translations =>
        if decide (j < length translations)%nat
        then t ← translations !! j; set_field h context key (str "translation") (PStr t)
        else Some h
    | None => Some h
    end = Some (<[r := ODict match tr with
                             | Some translations =>
                                 match translations !! j with
                                 | Some t => dict_set kvs (str "translation") (PStr t)
                                 | None => kvs
                                 end
                             | None => kvs
                             end]> h1)).
  { intros h kvs ->. destruct tr as [ts|]; [| done].
    destruct (decide (j < length ts)%nat) as [Hj | Hj].
    - destruct (lookup_lt_is_Some_2 ts j Hj) as [t Ht]. rewrite Ht. simpl.
      now apply set_field_record.
    - rewrite lookup_ge_None_2 by lia. done. }
  destruct (contains h1 context (str "price")); simpl.
  - unfold price_lookups, lookups. simpl.
    destruct (google_search_loop B Sv retries _ _ s) as [[[w1 d1] gs]|]; simpl; [| done].
    destruct (google_img_search_loop B Sv retries w1 d1 _ s) as [[[w2 d2] gis]|]; simpl; [| done].
    rewrite (set_field_if h1 r) by done. simpl.
    rewrite (set_field_if h1 r) by done. simpl.
    erewrite Htr by reflexivity. done.
  - erewrite Htr by reflexivity. done.
Qed.

End DriverFacts.

Lemma existsb_insert {A} (f : A -> bool) (l : list A) i x y :
  l !! i = Some y -> f x = f y -> existsb f (<[i := x]> l) = existsb f l.
Proof.
  revert i. induction l as [|z l IH]; intros [|i] Hi Hf; simpl in *; try done.
  - injection Hi as ->. now rewrite Hf.
  - now rewrite IH.
Qed.

Lemma existsb_dict_set kvs k v p :
  is_Some (dict_get kvs k) ->
  existsb (fun kv : list Z * pyval => bool_decide (kv.1 = p)) (dict_set kvs k v)
  = existsb (fun kv : list Z * pyval => bool_decide (kv.1 = p)) kvs.
Proof.
  induction kvs as [|[k0 v0] kvs IH]; simpl; intros [x Hx]; [done |].
  destruct (decide (k0 = k)) as [-> | Hne]; simpl; [done |].
  rewrite IH; eauto.
Qed.

(** The container after [context[key] = { "value": value }]. *)
Lemma store_record_container h context key value o h1 :
  h !! context = Some o -> is_Some (getitem h context key) ->
  store_record h context key value = Some h1 ->
  h1 !! context = Some (replace_entry o key (PRef (length h))).
Proof.
  intros Ho Hsome Hstore. pose proof (getitem_is_Some_lt _ _ _ Hsome) as Hlt.
  unfold store_record, new_dict, setitem in Hstore.
  rewrite lookup_app_l, Ho in Hstore by done.
  assert (Hlt' : (context < length (h ++ [ODict [(str "value", value)]]))%nat)
    by (rewrite length_app; lia).
  destruct o as [xs|kvs], key as [i|k]; try done; simpl.
  - destruct (decide (i < length xs)%nat); [| done]. injection Hstore as <-.
    now rewrite list_lookup_insert_eq.
  - injection Hstore as <-. now rewrite list_lookup_insert_eq.
Qed.

(** Storing the record of a leaf other than [p] does not change whether
    [p in context]. *)
Lemma contains_store_record h context key s p h1 :
  getitem h context key = Some (PStr s) -> s <> p ->
  store_record h context key (PStr s) = Some h1 ->
  contains h1 context p = contains h context p.
Proof.
  intros Hget Hne Hstore.
  assert (Hsome : is_Some (getitem h context key)) by eauto.
  unfold contains. unfold getitem in Hget.
  destruct (h !! context) as [o|] eqn:Ho; [| done].
  rewrite (store_record_container _ _ _ _ _ _ Ho Hsome Hstore).
  destruct o as [xs|kvs], key as [i|k]; try done; simpl.
  - eapply existsb_insert; [exact Hget |]. simpl.
    now rewrite bool_decide_eq_false_2.
  - apply existsb_dict_set. eauto.
Qed.

Lemma is_ascii_price : is_ascii (str "price") = true.
Proof. reflexivity. Qed.

Section LeafFacts.

Context (B : browser) (Sv : services).

Lemma pinyin_returns_guard s :
  pinyin_returns Sv s ->
  is_Some (if decide (0 < length (strip (strip_ascii s)))%nat
           then pinyin_get Sv (strip_ascii s) else Some []).
Proof.
  intros Hpin. destruct (decide (0 < length (strip (strip_ascii s)))%nat) as [Hc | Hc]; [| eauto].
  apply Hpin. intros E. rewrite E in Hc. simpl in Hc. lia.
Qed.

(** The body on a leaf the driver's predicate selects. *)
Lemma enrich_leaf retries tr (st : state B) j s key context :
  getitem (st_heap B st) context key = Some (PStr s) ->
  is_ascii s = false ->
  pinyin_returns Sv s ->
  exists h1,
    store_record (st_heap B st) context key (PStr s) = Some h1
    /\ getitem h1 context key = Some (PRef (length (st_heap B st)))
    /\ enrich B Sv retries tr st j (PStr s, key, context) =
         if contains (st_heap B st) context (str "price")
         then '(w, d, gs, gis) ← lookups B Sv retries (st_world B st) (st_driver B st) s;
              Some (State B (<[length (st_heap B st) :=
                                ODict (record_fields Sv tr j s (Some (gs, gis)))]> h1) w d)
         else Some (State B (<[length (st_heap B st) :=
                                ODict (record_fields Sv tr j s None)]> h1)
                      (st_world B st) (st_driver B st)).
Proof.
  intros Hget Hs Hpin.
  assert (Hsome : is_Some (getitem (st_heap B st) context key)) by eauto.
  destruct (store_record_spec _ _ _ (PStr s) Hsome) as (h1 & Hstore & Hget1 & _).
  exists h1. split; [done |]. split; [done |].
  rewrite (enrich_spec B Sv retries tr st j s key context h1 Hsome Hstore).
  destruct (pinyin_returns_guard s Hpin) as [p ->]. cbn [mbind option_bind].
  rewrite (contains_store_record _ _ _ s (str "price") h1 Hget); [done | | done].
  intros ->. now rewrite is_ascii_price in Hs.
Qed.

(** The body when a library call raises: [pinyin.get] on a projection that
    is not empty, or [quote] under [price]. *)
Lemma enrich_leaf_raises retries tr (st : state B) j s key context :
  getitem (st_heap B st) context key = Some (PStr s) ->
  is_ascii s = false ->
  (strip (strip_ascii s) <> [] /\ pinyin_get Sv (strip_ascii s) = None)
  \/ (contains (st_heap B st) context (str "price") = true /\ quote Sv s = None) ->
  enrich B Sv retries tr st j (PStr s, key, context) = None.
Proof.
  intros Hget Hs Hraise.
  assert (Hsome : is_Some (getitem (st_heap B st) context key)) by eauto.
  destruct (store_record_spec _ _ _ (PStr s) Hsome) as (h1 & Hstore & Hget1 & _).
  rewrite (enrich_spec B Sv retries tr st j s key context h1 Hsome Hstore).
  destruct (decide (0 < length (strip (strip_ascii s)))%nat) as [Hc | Hc].
  - destruct Hraise as [[_ ->] | [Hprice Hquote]]; [done |].
    destruct (pinyin_get Sv (strip_ascii s)); [| done]. cbn [mbind option_bind].
    rewrite (contains_store_record _ _ _ s (str "price") h1 Hget), Hprice; [| | done].
    + unfold lookups. destruct retries as [|n]; [done |].
      cbn [google_search_loop]. unfold search_url. now rewrite Hquote.
    + intros ->. now rewrite is_ascii_price in Hs.
  - destruct Hraise as [[Hne _] | [Hprice Hquote]].
    + destruct (strip (strip_ascii s)); [done | simpl in Hc; lia].
    + cbn [mbind option_bind].
      rewrite (contains_store_record _ _ _ s (str "price") h1 Hget), Hprice; [| | done].
      * unfold lookups. destruct retries as [|n]; [done |].
        cbn [google_search_loop]. unfold search_url. now rewrite Hquote.
      * intros ->. now rewrite is_ascii_price in Hs.
Qed.

(** The record of a leaf once the body has returned. *)
Lemma enrich_leaf_field retries tr (st : state B) j s key context :
  getitem (st_heap B st) context key = Some (PStr s) ->
  is_ascii s = false ->
  pinyin_returns Sv s ->
  (contains (st_heap B st) context (str "price") = true ->
   is_Some (lookups B Sv retries (st_world B st) (st_driver B st) s)) ->
  exists st',
    enrich B Sv retries tr st j (PStr s, key, context) = Some st'
    /\ record_at (st_heap B st') context key
       = Some (record_fields Sv tr j s (searches_of B Sv retries st context s)).
Proof.
  intros Hget Hs Hpin Hterm.
  destruct (enrich_leaf retries tr st j s key context Hget Hs Hpin)
    as (h1 & Hstore & Hget1 & ->).
  assert (Hsome : is_Some (getitem (st_heap B st) context key)) by eauto.
  destruct (store_record_spec _ _ _ (PStr s) Hsome) as (h1' & E & _ & _ & Hlen & _).
  rewrite Hstore in E. injection E as <-.
  pose proof (getitem_is_Some_lt _ _ _ Hsome) as Hctx.
  assert (Hrec : forall F (w : world B) d,
            record_at (st_heap B (State B (<[length (st_heap B st) := ODict F]> h1) w d))
              context key = Some F).
  { intros F w d. unfold record_at. simpl.
    rewrite getitem_insert_ne, Hget1 by lia.
    now rewrite list_lookup_insert_eq by lia. }
  unfold searches_of.
  destruct (contains (st_heap B st) context (str "price")).
  - destruct Hterm as [[[[w d] gs] gis] ->]; [done |]. simpl.
    eexists. split; [reflexivity |]. apply Hrec.
  - eexists. split; [reflexivity |]. apply Hrec.
Qed.

End LeafFacts.

(** ** The entries of a record *)

Ltac str_decide :=
  repeat match goal with
  | |- context [decide (str ?a = str ?b)] =>
      let E := fresh "E" in
      destruct (decide (str a = str b)) as [E | E];
      [ try (exfalso; vm_compute in E; congruence)
      | try (exfalso; apply E; reflexivity) ];
      try clear E
  end.

Lemma record_fields_get Sv tr j s searches :
  let F := record_fields Sv tr j s searches in
  dict_get F (str "value") = Some (PStr s)
  /\ dict_get F (str "pinyin") = pinyin_field Sv s
  /\ dict_get F (str "knowledge_graph") = (searches ≫= fun gg => head gg.1)
  /\ dict_get F (str "google_image") = (searches ≫= fun gg => head gg.2)
  /\ dict_get F (str "translation") = PStr <$> (tr ≫= fun translations => translations !! j).
Proof.
  unfold record_fields, set_if, first.
  destruct (pinyin_field Sv s);
    destruct searches as [[[|g gs] [|i gis]]|]; simpl;
    destruct tr as [ts|]; simpl; try destruct (ts !! j); simpl;
    repeat rewrite dict_get_set; simpl; str_decide; done.
Qed.

Lemma field_record h context key F f :
  record_at h context key = Some F -> field h context key f = dict_get F f.
Proof. intros H. unfold field. now rewrite H. Qed.

Lemma strip_ascii_spec s :
  ~ In 128 s ->
  strip_ascii s
  = List.filter (fun c => negb ((c <? 128) || int_in c [0x2018; 0xff08; 0xff09; 0xff0c])) s.
Proof.
  intros H. unfold strip_ascii. induction s as [|c s IH]; [done |].
  assert (Hc : c <> 128) by (intros ->; apply H; now left).
  cbn [List.filter]. rewrite IH by (intros Hin; apply H; now right).
  replace ((c >? 128) && negb (int_in c ASCII_BUT_UNICODE))
    with (negb ((c <? 128) || int_in c [0x2018; 0xff08; 0xff09; 0xff0c])); [done |].
  rewrite negb_orb. f_equal. rewrite Z.gtb_ltb.
  destruct (Z.ltb_spec c 128), (Z.ltb_spec 128 c); simpl; try done; lia.
Qed.

Lemma pinyin_projection_counterexample :
  strip (strip_ascii parens_ideographic_comma) <> []
  /\ exists st',
       enrich (brittle 9) numbering 1 None (State (brittle 9) punctuation_heap [9%nat] 0%nat)
         0 (PStr parens_ideographic_comma, KIdx 0, 0%nat) = Some st'
       /\ field (st_heap (brittle 9) st') 0%nat (KIdx 0) (str "pinyin")
          = Some (PStr (str "pin yin")).
Proof.
  split; [discriminate |]. eexists. split; reflexivity.
Qed.

(** Whether the record gets [pinyin]. *)
Lemma pinyin_field_is_Some Sv s :
  pinyin_returns Sv s -> (is_Some (pinyin_field Sv s) <-> strip (strip_ascii s) <> []).
Proof.
  intros Hpin. unfold pinyin_field.
  destruct (strip (strip_ascii s)) as [|c p] eqn:E; simpl.
  - split; [intros [x Hx]; done | done].
  - destruct Hpin as [q ->]; [now rewrite E |]. split; [done | eauto].
Qed.

(** C4, amended: for a selected leaf without the character U+0080, on
    which [pinyin.get] and the lookups return where the body calls them,
    the pinyin projection is the value without its characters that are
    ASCII or on the allow-list, trimmed, and the record gets a [pinyin]
    entry exactly when that projection is not empty.  For "（）、" the
    projection is "、": the ideographic comma U+3001 is not on the
    allow-list. *)
Theorem pinyin_projection_amended (B : browser) (Sv : services) retries tr
    (st : state B) j s key context :
  getitem (st_heap B st) context key = Some (PStr s) ->
  valid_translate_value (st_heap B st) (PStr s) key context = true ->
  ~ In 128 s ->
  (strip (strip_ascii s) <> [] -> is_Some (pinyin_get Sv (strip_ascii s))) ->
  (contains (st_heap B st) context (str "price") = true ->
   is_Some (lookups B Sv retries (st_world B st) (st_driver B st) s)) ->
  strip (strip_ascii s) = projection_spec s
  /\ (exists st',
        enrich B Sv retries tr st j (PStr s, key, context) = Some st'
        /\ (is_Some (field (st_heap B st') context key (str "pinyin"))
            <-> projection_spec s <> []))
  /\ strip (strip_ascii parens_ideographic_comma) = [0x3001].
Proof.
  intros Hget Hsel H128 Hpin Hterm.
  assert (Hs : is_ascii s = false) by (simpl in Hsel; now destruct (is_ascii s)).
  assert (Hproj : strip (strip_ascii s) = projection_spec s)
    by (unfold projection_spec; now rewrite strip_ascii_spec).
  split; [done |]. split; [| reflexivity].
  destruct (enrich_leaf_field B Sv retries tr st j s key context Hget Hs Hpin Hterm)
    as (st' & Hst' & Hrec).
  exists st'. split; [done |].
  rewrite (field_record _ _ _ _ _ Hrec).
  destruct (record_fields_get Sv tr j s (searches_of B Sv retries st context s))
    as (_ & -> & _).
  rewrite <- Hproj. now apply pinyin_field_is_Some.
Qed.

Lemma pinyin_projection_amended_witness :
  strip (strip_ascii ni_hao_world) = projection_spec ni_hao_world
  /\ (exists st',
        enrich (brittle 9) numbering 1 None (State (brittle 9) [OList [PStr ni_hao_world]]
          [9%nat] 0%nat) 0 (PStr ni_hao_world, KIdx 0, 0%nat) = Some st'
        /\ (is_Some (field (st_heap (brittle 9) st') 0%nat (KIdx 0) (str "pinyin"))
            <-> projection_spec ni_hao_world <> []))
  /\ strip (strip_ascii parens_ideographic_comma) = [0x3001].
Proof.
  apply (pinyin_projection_amended (brittle 9) numbering 1 None
           (State (brittle 9) [OList [PStr ni_hao_world]] [9%nat] 0%nat)
           0 ni_hao_world (KIdx 0) 0%nat).
  - reflexivity.
  - reflexivity.
  - vm_compute. intuition discriminate.
  - intros _. eexists. reflexivity.
  - discriminate.
Defined.

(** ** The price-triggered lookups *)

Section Counting.

Context (B : browser) (Sv : services).

Lemma get_page_xpaths_navigations xpaths :
  forall (w : world (counting B)) d results,
    (get_page_xpaths (counting B) w d xpaths results).1.2 = w.2.
Proof.
  induction xpaths as [|[xpath attr] xpaths IH]; intros [w n] d results; simpl; [done |].
  destruct (find_element_by_xpath B w d xpath) as [w1 [el | [|]]]; simpl;
    try done; try apply (IH (w1, n)).
  destruct (startswith_at attr).
  - destruct (get_attribute B w1 el (tail attr)) as [w2 [v | [|]]]; simpl;
      try done; try apply (IH (w2, n)).
  - destruct (getattr B w1 el attr) as [w2 [v | [|]]]; simpl;
      try done; try apply (IH (w2, n)).
Qed.

Lemma get_page_navigations (w : world (counting B)) url xpaths d :
  (get_page (counting B) w url xpaths d).1.2 = S w.2.
Proof.
  destruct w as [w n]. unfold get_page. simpl.
  destruct (driver_get B w d url) as [w1 [[] | e]]; simpl; [| done].
  apply (get_page_xpaths_navigations xpaths (w1, S n)).
Qed.

Lemma new_driver_navigations (w : world (counting B)) :
  (new_driver (counting B) w).1.2 = w.2.
Proof. destruct w as [w n]. simpl. now destruct (new_driver B w). Qed.

Lemma google_search_loop_navigations fuel :
  forall (w : world (counting B)) d s w' d' gs,
    google_search_loop (counting B) Sv fuel w d s = Some (w', d', gs) -> (w.2 < w'.2)%nat.
Proof.
  induction fuel as [|n IH]; intros w d s w' d' gs; [done |].
  cbn [google_search_loop].
  destruct (search_url Sv s) as [url|]; cbn [mbind option_bind]; [| done].
  pose proof (get_page_navigations w url search_xpaths d) as Hnav.
  destruct (get_page (counting B) w url search_xpaths d) as [w1 [r|]];
    simpl in Hnav.
  - intros [= <- <- <-]. lia.
  - pose proof (new_driver_navigations w1) as Hnew.
    destruct (new_driver (counting B) w1) as [w2 d2]. simpl in Hnew.
    intros H. apply IH in H. lia.
Qed.

Lemma google_img_search_loop_navigations fuel :
  forall (w : world (counting B)) d gs s w' d' gis,
    google_img_search_loop (counting B) Sv fuel w d gs s = Some (w', d', gis) ->
    (w.2 < w'.2)%nat.
Proof.
  induction fuel as [|n IH]; intros w d gs s w' d' gis; [done |].
  cbn [google_img_search_loop].
  destruct (img_search_url Sv s) as [url|]; cbn [mbind option_bind]; [| done].
  pose proof (get_page_navigations w url img_search_xpaths d) as Hnav.
  destruct (get_page (counting B) w url img_search_xpaths d) as [w1 r].
  simpl in Hnav.
  assert (Hnew : forall w2 d2,
            match gs with Some _ => (w1, d) | None => new_driver (counting B) w1 end = (w2, d2) ->
            w2.2 = w1.2).
  { intros w2 d2. destruct gs; [now intros [= <- <-] |].
    pose proof (new_driver_navigations w1) as H. intros E. now rewrite E in H. }
  destruct (match gs with Some _ => (w1, d) | None => new_driver (counting B) w1 end)
    as [w2 d2].
  specialize (Hnew w2 d2 eq_refl).
  destruct r as [r|].
  - intros [= <- <- <-]. lia.
  - intros H. apply IH in H. lia.
Qed.

(** Both lookups, each of which asks for a page at least once. *)
Lemma lookups_navigations retries (w : world (counting B)) d s w' d' gs gis :
  lookups (counting B) Sv retries w d s = Some (w', d', gs, gis) ->
  exists w1 d1,
    google_search_loop (counting B) Sv retries w d s = Some (w1, d1, gs)
    /\ (w.2 < w1.2)%nat
    /\ google_img_search_loop (counting B) Sv retries w1 d1 (Some gs) s = Some (w', d', gis)
    /\ (w1.2 < w'.2)%nat.
Proof.
  unfold lookups.
  destruct (google_search_loop (counting B) Sv retries w d s) as [[[w1 d1] gs1]|] eqn:E1;
    simpl; [| done].
  destruct (google_img_search_loop (counting B) Sv retries w1 d1 (Some gs1) s)
    as [[[w2 d2] gis2]|] eqn:E2; simpl; [| done].
  intros [= <- <- <- <-]. exists w1, d1.
  apply google_search_loop_navigations in E1 as H1.
  apply google_img_search_loop_navigations in E2 as H2. done.
Qed.

End Counting.

Lemma contains_dict h context kvs p :
  h !! context = Some (ODict kvs) -> (contains h context p = true <-> In p (map fst kvs)).
Proof.
  intros Hc. unfold contains. rewrite Hc, existsb_exists, in_map_iff. split.
  - intros ([k v] & Hin & Hk). apply bool_decide_eq_true in Hk. exists (k, v). done.
  - intros ([k v] & Hk & Hin). exists (k, v). split; [done |]. now apply bool_decide_eq_true.
Qed.

Lemma contains_list h context xs p :
  h !! context = Some (OList xs) -> (contains h context p = true <-> In (PStr p) xs).
Proof.
  intros Hc. unfold contains. rewrite Hc, existsb_exists. split.
  - intros (x & Hin & Hx). destruct x; try done. simpl in Hx.
    apply bool_decide_eq_true in Hx. now subst.
  - intros Hin. exists (PStr p). split; [done |]. simpl. now apply bool_decide_eq_true.
Qed.

(** C10: for a selected leaf on which the library calls return, the
    lookups are made exactly when ["price" in context] holds, which for a
    dict says that it has the key [price] and for a list that one of its
    elements is the string "price".  The pages asked of the browser are
    counted to tell whether the lookups were made: when the test holds the
    knowledge-panel loop runs and asks for a page, and the image loop runs
    from where that left the browser and asks for a page of its own, and
    the body goes on from where the image loop left the browser; when the
    test fails the browser is not touched. *)
Theorem price_lookups_iff_contains (B : browser) (Sv : services) retries tr
    (st : state (counting B)) j s key context :
  getitem (st_heap _ st) context key = Some (PStr s) ->
  valid_translate_value (st_heap _ st) (PStr s) key context = true ->
  (strip (strip_ascii s) <> [] -> is_Some (pinyin_get Sv (strip_ascii s))) ->
  (contains (st_heap _ st) context (str "price") = true ->
   is_Some (lookups (counting B) Sv retries (st_world _ st) (st_driver _ st) s)) ->
  (exists st',
     enrich (counting B) Sv retries tr st j (PStr s, key, context) = Some st'
     /\ ((navigations st < navigations st')%nat
         <-> contains (st_heap _ st) context (str "price") = true)
     /\ (contains (st_heap _ st) context (str "price") = true ->
         (navigations st + 2 <= navigations st')%nat
         /\ exists w1 d1 gs gis,
              google_search_loop (counting B) Sv retries (st_world _ st) (st_driver _ st) s
                = Some (w1, d1, gs)
              /\ (navigations st < w1.2)%nat
              /\ google_img_search_loop (counting B) Sv retries w1 d1 (Some gs) s
                 = Some (st_world _ st', st_driver _ st', gis)
              /\ (w1.2 < navigations st')%nat)
     /\ (contains (st_heap _ st) context (str "price") = false ->
         st_world _ st' = st_world _ st /\ st_driver _ st' = st_driver _ st))
  /\ (forall kvs, st_heap _ st !! context = Some (ODict kvs) ->
        (contains (st_heap _ st) context (str "price") = true
         <-> In (str "price") (map fst kvs)))
  /\ (forall xs, st_heap _ st !! context = Some (OList xs) ->
        (contains (st_heap _ st) context (str "price") = true
         <-> In (PStr (str "price")) xs)).
Proof.
  intros Hget Hsel Hpin Hterm.
  assert (Hs : is_ascii s = false) by (simpl in Hsel; now destruct (is_ascii s)).
  split; [| split; [intros kvs; apply contains_dict | intros xs; apply contains_list]].
  destruct (enrich_leaf (counting B) Sv retries tr st j s key context Hget Hs Hpin)
    as (h1 & _ & _ & ->).
  unfold navigations.
  destruct (contains (st_heap _ st) context (str "price")) eqn:Hprice.
  - destruct Hterm as [[[[w d] gs] gis] Hl]; [done |]. rewrite Hl. simpl.
    eexists. split; [reflexivity |]. simpl.
    apply lookups_navigations in Hl as (w1 & d1 & Hgs & Hnav1 & Hgis & Hnav2).
    split; [split; [done | intros _; lia] |]. split; [| done].
    intros _. split; [lia |]. exists w1, d1, gs, gis. done.
  - eexists. split; [reflexivity |]. simpl.
    split; [split; [lia | done] |]. split; done.
Qed.

Lemma price_lookups_iff_contains_witness :
  (exists st',
     enrich (counting (brittle 9)) numbering 1 None
       (State (counting (brittle 9)) price_list_heap ([9%nat], 0%nat) 0%nat)
       0 (PStr ni_hao, KIdx 1, 0%nat) = Some st'
     /\ ((0 < navigations st')%nat <-> contains price_list_heap 0%nat (str "price") = true)
     /\ (contains price_list_heap 0%nat (str "price") = true ->
         (0 + 2 <= navigations st')%nat
         /\ exists w1 d1 gs gis,
              google_search_loop (counting (brittle 9)) numbering 1 ([9%nat], 0%nat) 0%nat ni_hao
                = Some (w1, d1, gs)
              /\ (0 < w1.2)%nat
              /\ google_img_search_loop (counting (brittle 9)) numbering 1 w1 d1 (Some gs) ni_hao
                 = Some (st_world _ st', st_driver _ st', gis)
              /\ (w1.2 < navigations st')%nat)
     /\ (contains price_list_heap 0%nat (str "price") = false ->
         st_world _ st' = ([9%nat], 0%nat) /\ st_driver _ st' = 0%nat))
  /\ (forall kvs, price_list_heap !! 0%nat = Some (ODict kvs) ->
        (contains price_list_heap 0%nat (str "price") = true
         <-> In (str "price") (map fst kvs)))
  /\ (forall xs, price_list_heap !! 0%nat = Some (OList xs) ->
        (contains price_list_heap 0%nat (str "price") = true
         <-> In (PStr (str "price")) xs)).
Proof.
  apply (price_lookups_iff_contains (brittle 9) numbering 1 None
           (State (counting (brittle 9)) price_list_heap ([9%nat], 0%nat) 0%nat)
           0 ni_hao (KIdx 1) 0%nat).
  - reflexivity.
  - reflexivity.
  - intros _. eexists. reflexivity.
  - intros _. vm_compute. eauto.
Defined.

(** ** Lost sessions *)

(** Whatever [driver.get] raises, the session-invalid signal included,
    [get_page] answers with the empty list. *)
Lemma get_page_navigation_raises (B : browser) (w w' : world B) url xpaths driver e :
  driver_get B w driver url = (w', Raises e) ->
  get_page B w url xpaths driver = (w', Some []).
Proof. intros H. unfold get_page. now rewrite H. Qed.

(** [get_page] answers [None] only after the page has loaded. *)
Lemma get_page_None_navigated (B : browser) (w w' : world B) url xpaths driver :
  get_page B w url xpaths driver = (w', None) ->
  exists w1, driver_get B w driver url = (w1, Returns tt).
Proof.
  unfold get_page. destruct (driver_get B w driver url) as [w1 [[] | e]]; [eauto | done].
Qed.

(** The image loop never replaces the driver: [google_search] is not [None]
    when the loop runs. *)
Lemma google_img_search_loop_keeps_driver (B : browser) (Sv : services) fuel :
  forall (w w' : world B) d d' gs s results,
    google_img_search_loop B Sv fuel w d (Some gs) s = Some (w', d', results) -> d' = d.
Proof.
  induction fuel as [|n IH]; intros w w' d d' gs s results; [done |].
  cbn [google_img_search_loop].
  destruct (img_search_url Sv s) as [url|]; cbn [mbind option_bind]; [| done].
  destruct (get_page B w url img_search_xpaths d) as [w1 [r|]].
  - now intros [= _ <- _].
  - apply IH.
Qed.

(** The knowledge-panel loop replaces the driver each time [get_page]
    returns [None]. *)
Lemma google_search_loop_replaces_driver (B : browser) (Sv : services) fuel
    (w w1 : world B) d s url :
  search_url Sv s = Some url ->
  get_page B w url search_xpaths d = (w1, None) ->
  google_search_loop B Sv (S fuel) w d s
  = google_search_loop B Sv fuel (new_driver B w1).1 (new_driver B w1).2 s.
Proof.
  intros Hurl H. cbn [google_search_loop]. rewrite Hurl. cbn [mbind option_bind].
  rewrite H. now destruct (new_driver B w1).
Qed.

(** C6, at a session that is already lost when the lookup starts:
    [driver.get] raises the session-invalid signal, and [get_page] returns
    the empty list, not [None]. *)
Theorem get_page_lost_session_not_None :
  exists url,
    search_url numbering ni_hao = Some url
    /\ driver_get (brittle 9) [0%nat] 0%nat url
       = ([0%nat], Raises InvalidSessionIdException)
    /\ get_page (brittle 9) [0%nat] url search_xpaths 0%nat
       = ([0%nat], Some []).
Proof. eexists. repeat split; reflexivity. Qed.

(** C5, at a session lost during the image lookup.  Session 0 stands six
    more commands: the knowledge-panel lookup succeeds on it, the image
    lookup then returns [None], and the image loop goes round again on the
    same driver without a new session (the world still has one session) and
    ends with an empty result.  The knowledge-panel loop, at a session lost
    in the same way, does launch session 1 before it retries. *)
Theorem image_retry_keeps_lost_session :
  google_search_loop (brittle 9) numbering 3 [6%nat] 0%nat ni_hao
    = Some ([1%nat], 0%nat, [PStr (str "Peking duck"); PStr (str "Peking duck")])
  /\ (exists url,
        img_search_url numbering ni_hao = Some url
        /\ get_page (brittle 9) [1%nat] url img_search_xpaths 0%nat = ([0%nat], None))
  /\ google_img_search_loop (brittle 9) numbering 3 [1%nat] 0%nat
       (Some [PStr (str "Peking duck"); PStr (str "Peking duck")]) ni_hao
     = Some ([0%nat], 0%nat, [])
  /\ google_search_loop (brittle 9) numbering 3 [1%nat] 0%nat ni_hao
     = Some ([0%nat; 4%nat], 1%nat, [PStr (str "Peking duck"); PStr (str "Peking duck")]).
Proof.
  split; [reflexivity |]. split; [eexists; split; reflexivity |].
  split; reflexivity.
Qed.

(** ** The record of a leaf *)

(** C7: on a selected leaf on which the library calls return, the body
    returns, and the record that replaces the leaf has the leaf under
    [value]; it has [pinyin] only when the projection is not empty,
    [translation] only when the request returned and has an answer at the
    leaf's position, [knowledge_graph] and [google_image] only when the
    lookups were made and the one in question returned a result. *)
Theorem record_invariant (B : browser) (Sv : services) retries tr (st : state B)
    j s key context :
  getitem (st_heap B st) context key = Some (PStr s) ->
  valid_translate_value (st_heap B st) (PStr s) key context = true ->
  (strip (strip_ascii s) <> [] -> is_Some (pinyin_get Sv (strip_ascii s))) ->
  (contains (st_heap B st) context (str "price") = true ->
   is_Some (lookups B Sv retries (st_world B st) (st_driver B st) s)) ->
  exists st',
    enrich B Sv retries tr st j (PStr s, key, context) = Some st'
    /\ field (st_heap B st') context key (str "value") = Some (PStr s)
    /\ (is_Some (field (st_heap B st') context key (str "pinyin")) ->
        strip (strip_ascii s) <> [])
    /\ (is_Some (field (st_heap B st') context key (str "translation")) ->
        exists translations, tr = Some translations /\ (j < length translations)%nat)
    /\ (is_Some (field (st_heap B st') context key (str "knowledge_graph")) ->
        exists w d gs gis,
          lookups B Sv retries (st_world B st) (st_driver B st) s = Some (w, d, gs, gis)
          /\ gs <> [])
    /\ (is_Some (field (st_heap B st') context key (str "google_image")) ->
        exists w d gs gis,
          lookups B Sv retries (st_world B st) (st_driver B st) s = Some (w, d, gs, gis)
          /\ gis <> []).
Proof.
  intros Hget Hsel Hpin Hterm.
  assert (Hs : is_ascii s = false) by (simpl in Hsel; now destruct (is_ascii s)).
  destruct (enrich_leaf_field B Sv retries tr st j s key context Hget Hs Hpin Hterm)
    as (st' & Hst' & Hrec).
  exists st'. split; [done |].
  rewrite !(field_record _ _ _ _ _ Hrec).
  destruct (record_fields_get Sv tr j s (searches_of B Sv retries st context s))
    as (-> & -> & -> & -> & ->).
  split; [done |]. split; [| split; [| split]].
  - now apply pinyin_field_is_Some.
  - destruct tr as [ts|]; simpl; [| intros [x Hx]; done].
    destruct (ts !! j) eqn:Hj; simpl; [| intros [x Hx]; done].
    intros _. exists ts. split; [done |]. eapply lookup_lt_Some; eauto.
  - unfold searches_of. destruct (contains _ context _); [| intros [x Hx]; done].
    destruct (lookups B Sv retries _ _ s) as [[[[w d] gs] gis]|]; [| intros [x Hx]; done].
    simpl. intros [x Hx]. exists w, d, gs, gis. split; [done |]. now destruct gs.
  - unfold searches_of. destruct (contains _ context _); [| intros [x Hx]; done].
    destruct (lookups B Sv retries _ _ s) as [[[[w d] gs] gis]|]; [| intros [x Hx]; done].
    simpl. intros [x Hx]. exists w, d, gs, gis. split; [done |]. now destruct gis.
Qed.

Lemma record_invariant_witness :
  exists st',
    enrich (brittle 9) numbering 1 (Some [str "Roast Duck"])
      (State (brittle 9) price_dict_heap [9%nat] 0%nat) 0
      (PStr ni_hao, KStr (str "name"), 0%nat) = Some st'
    /\ field (st_heap _ st') 0%nat (KStr (str "name")) (str "value") = Some (PStr ni_hao)
    /\ (is_Some (field (st_heap _ st') 0%nat (KStr (str "name")) (str "pinyin")) ->
        strip (strip_ascii ni_hao) <> [])
    /\ (is_Some (field (st_heap _ st') 0%nat (KStr (str "name")) (str "translation")) ->
        exists translations,
          Some [str "Roast Duck"] = Some translations /\ (0 < length translations)%nat)
    /\ (is_Some (field (st_heap _ st') 0%nat (KStr (str "name")) (str "knowledge_graph")) ->
        exists w d gs gis,
          lookups (brittle 9) numbering 1 [9%nat] 0%nat ni_hao = Some (w, d, gs, gis)
          /\ gs <> [])
    /\ (is_Some (field (st_heap _ st') 0%nat (KStr (str "name")) (str "google_image")) ->
        exists w d gs gis,
          lookups (brittle 9) numbering 1 [9%nat] 0%nat ni_hao = Some (w, d, gs, gis)
          /\ gis <> []).
Proof.
  apply (record_invariant (brittle 9) numbering 1 (Some [str "Roast Duck"])
           (State (brittle 9) price_dict_heap [9%nat] 0%nat) 0 ni_hao
           (KStr (str "name")) 0%nat).
  - reflexivity.
  - reflexivity.
  - intros _. eexists. reflexivity.
  - intros _. vm_compute. eauto.
Defined.

(** ** Entries by position and by key *)

Lemma dict_get_lookup kvs i k x :
  NoDup (map fst kvs) -> kvs !! i = Some (k, x) -> dict_get kvs k = Some x.
Proof.
  revert i. induction kvs as [|[k0 v0] kvs IH]; intros i Hnd Hi; [done |].
  apply NoDup_cons in Hnd as [Hk0 Hnd]. simpl.
  destruct i as [|i]; simpl in Hi.
  - injection Hi as -> ->. now destruct (decide (k = k)).
  - destruct (decide (k0 = k)) as [-> | Hne]; [| eauto].
    exfalso. apply Hk0. apply list_elem_of_fmap. exists (k, x).
    split; [done |]. eapply list_elem_of_lookup_2; eauto.
Qed.

Lemma dict_set_lookup_ne kvs i k v k' x :
  kvs !! i = Some (k', x) -> k' <> k -> dict_set kvs k v !! i = Some (k', x).
Proof.
  revert i. induction kvs as [|[k0 v0] kvs IH]; intros i Hi Hne; [done |].
  simpl. destruct i as [|i]; simpl in Hi.
  - injection Hi as -> ->. now destruct (decide (k' = k)).
  - destruct (decide (k0 = k)); simpl; eauto.
Qed.

Lemma items_lookup kvs i k x :
  items kvs !! i = Some (k, x) <-> exists k', k = KStr k' /\ kvs !! i = Some (k', x).
Proof.
  unfold items. rewrite list_lookup_fmap.
  destruct (kvs !! i) as [[k0 v0]|]; simpl; split.
  - intros [= <- <-]. eauto.
  - intros (k' & -> & [= -> ->]). done.
  - done.
  - intros (k' & _ & [=]).
Qed.

Lemma items_keys kvs : map fst (items kvs) = map KStr (map fst kvs).
Proof. unfold items. rewrite !map_map. done. Qed.

Lemma enumerate_keys xs : map fst (enumerate xs) = map KIdx (seq 0 (length xs)).
Proof.
  apply list_eq. intros i. rewrite !list_lookup_fmap.
  destruct (xs !! i) as [x|] eqn:Hx.
  - assert (H : enumerate xs !! i = Some (KIdx i, x)) by now apply enumerate_lookup.
    rewrite H. simpl. apply lookup_lt_Some in Hx.
    now rewrite lookup_seq_lt.
  - assert (H : enumerate xs !! i = None).
    { destruct (enumerate xs !! i) as [[k x]|] eqn:E; [| done].
      apply enumerate_lookup in E as [_ E]. congruence. }
    rewrite H. simpl. apply lookup_ge_None in Hx.
    now rewrite lookup_seq_ge.
Qed.

(** With every key once, the entry at a position is the entry under its key. *)
Lemma slot_getitem h a o i k x :
  h !! a = Some o -> NoDup (map fst (container_items o)) ->
  container_items o !! i = Some (k, x) -> getitem h a k = Some x.
Proof.
  intros Ha Hnd Hi. unfold getitem. rewrite Ha. destruct o as [xs|kvs]; simpl in *.
  - apply enumerate_lookup in Hi as [-> Hx]. done.
  - apply items_lookup in Hi as (k' & -> & Hx).
    rewrite items_keys in Hnd. apply NoDup_fmap in Hnd; [| intros ? ? [=]; done].
    eapply dict_get_lookup; eauto.
Qed.

Lemma replace_entry_keys o k v x :
  (exists i, container_items o !! i = Some (k, x)) ->
  map fst (container_items (replace_entry o k v)) = map fst (container_items o).
Proof.
  intros [i Hi]. destruct o as [xs|kvs], k as [j|k]; simpl in *; try done.
  - now rewrite !enumerate_keys, length_insert.
  - apply items_lookup in Hi as (k' & [= <-] & Hx).
    rewrite !items_keys. f_equal. apply dict_set_keys.
    revert i Hx. induction kvs as [|[k0 v0] kvs IH]; intros i Hx; [done |].
    simpl. destruct (decide (k0 = k)); [eauto |].
    destruct i as [|i]; simpl in Hx; [congruence | eauto].
Qed.

Lemma replace_entry_lookup_ne o k v i k' x :
  container_items o !! i = Some (k', x) -> k' <> k ->
  container_items (replace_entry o k v) !! i = Some (k', x).
Proof.
  intros Hi Hne. destruct o as [xs|kvs], k as [j|k]; simpl in *; try done.
  - apply enumerate_lookup in Hi as [-> Hx]. apply enumerate_lookup.
    split; [done |]. rewrite list_lookup_insert_ne; [done | congruence].
  - apply items_lookup in Hi as (k'' & -> & Hx). apply items_lookup.
    exists k''. split; [done |]. apply dict_set_lookup_ne; [done | congruence].
Qed.

Lemma getitem_same h h' a k : h' !! a = h !! a -> getitem h' a k = getitem h a k.
Proof. intros H. unfold getitem. now rewrite H. Qed.

Lemma getitem_replaced_ne h h' a o k v k' :
  h !! a = Some o -> h' !! a = Some (replace_entry o k v) -> k' <> k ->
  getitem h' a k' = getitem h a k'.
Proof.
  intros Ha Ha' Hne. unfold getitem. rewrite Ha, Ha'.
  destruct o as [xs|kvs], k as [j|k], k' as [j'|k']; simpl; try done.
  - rewrite list_lookup_insert_ne; [done | congruence].
  - rewrite dict_get_set. destruct (decide (k = k')); [congruence | done].
Qed.

Lemma existsb_map_eq {A} (f : A -> bool) (l l' : list A) :
  map f l = map f l' -> existsb f l = existsb f l'.
Proof.
  revert l'. induction l as [|x l IH]; intros [|y l']; simpl; try done.
  intros [= -> H]. now rewrite (IH l' H).
Qed.

Lemma map_KStr_inj (l l' : list (list Z)) : map KStr l = map KStr l' -> l = l'.
Proof.
  revert l'. induction l as [|x l IH]; intros [|y l']; simpl; try done.
  intros [= -> H]. now rewrite (IH l' H).
Qed.

(** Whether a list or dict holds a given ASCII string is the same in the
    store of the pass as in the store it started from: keys are kept, and
    the elements replaced so far were strings that are not ASCII. *)
Lemma lockstep_contains Sv tr h0 h visited a p :
  lockstep Sv tr h0 h visited ->
  (a < length h0)%nat -> is_ascii p = true ->
  contains h a p = contains h0 a p.
Proof.
  intros Hlock Ha Hp.
  destruct (lookup_lt_is_Some_2 h0 a Ha) as [o0 Ha0].
  destruct (lock_keys _ _ _ _ _ Hlock a o0 Ha0) as (o & Hao & Hkeys).
  unfold contains. rewrite Ha0, Hao.
  destruct o0 as [xs0|kvs0], o as [xs|kvs]; simpl in Hkeys.
  - apply existsb_map_eq.
    assert (Hlen : length xs = length xs0).
    { apply (f_equal length) in Hkeys.
      now rewrite !enumerate_keys, !length_map, !length_seq in Hkeys. }
    apply list_eq. intros i. rewrite !list_lookup_fmap.
    destruct (xs0 !! i) as [x0|] eqn:Hx0.
    2: { apply lookup_ge_None in Hx0. rewrite lookup_ge_None_2 by lia. done. }
    assert (Hslot0 : slot h0 a i = Some (KIdx i, x0)).
    { unfold slot. rewrite Ha0. now apply enumerate_lookup. }
    destruct (decide ((a, KIdx i) ∈ map position visited)) as [Hin | Hnot].
    + apply list_elem_of_fmap in Hin as ([[x' k'] a'] & [= <- <-] & Hin).
      apply list_elem_of_lookup_1 in Hin as [m Hm].
      destruct (lock_leaves _ _ _ _ _ Hlock m x' (KIdx i) a Hm) as (i' & s & -> & Hs & Hslot).
      unfold slot in Hslot. rewrite Ha0 in Hslot.
      apply enumerate_lookup in Hslot as [[= <-] Hslot].
      rewrite Hslot in Hx0. injection Hx0 as <-.
      destruct (lock_records _ _ _ _ _ Hlock m s (KIdx i) a Hm) as (_ & r & Hget & _).
      unfold getitem in Hget. rewrite Hao in Hget. rewrite Hget. simpl.
      rewrite bool_decide_eq_false_2; [done |].
      intros ->. congruence.
    + assert (Hslot : slot h a i = Some (KIdx i, x0)).
      { apply (lock_slots _ _ _ _ _ Hlock); [done |].
        intros Hin. apply Hnot. now apply list_elem_of_In. }
      unfold slot in Hslot. rewrite Hao in Hslot.
      apply enumerate_lookup in Hslot as [_ ->]. done.
  - rewrite enumerate_keys, items_keys in Hkeys.
    destruct xs0; destruct kvs; try done.
  - rewrite enumerate_keys, items_keys in Hkeys.
    destruct xs; destruct kvs0; try done.
  - rewrite !items_keys in Hkeys. apply map_KStr_inj in Hkeys.
    transitivity (existsb (fun k : list Z => bool_decide (k = p)) (map fst kvs)).
    { clear. induction kvs as [|[k v] kvs IH]; simpl; [done | now rewrite IH]. }
    rewrite Hkeys. clear. induction kvs0 as [|[k v] kvs IH]; simpl; [done | now rewrite IH].
Qed.

(** ** The mutation pass in step with the collection pass *)

Section Lockstep.

Context (B : browser) (Sv : services) (retries : nat) (tr : option (list (list Z))).
Context (h0 : list pyobj).
Hypothesis closed_h0 : closed_store h0.
Hypothesis unique_h0 : unique_keys h0.
Hypothesis services_h0 : services_return B Sv retries h0.

(** The body at a leaf the pass has not visited yet. *)
Lemma lockstep_enrich (st : state B) visited a i k s :
  lockstep Sv tr h0 (st_heap B st) visited ->
  slot h0 a i = Some (k, PStr s) ->
  ~ In (a, k) (map position visited) ->
  is_ascii s = false ->
  exists st',
    enrich B Sv retries tr st (length visited) (PStr s, k, a) = Some st'
    /\ lockstep Sv tr h0 (st_heap B st') (visited ++ [(PStr s, k, a)]).
Proof.
  intros Hlock Hslot0 Hnew Hs. set (h := st_heap B st) in *.
  pose proof (lock_slots _ _ _ _ _ Hlock a i k (PStr s) Hslot0 Hnew) as Hslot.
  unfold slot in Hslot0, Hslot.
  destruct (h0 !! a) as [o0|] eqn:Ha0; [| done].
  destruct (lock_keys _ _ _ _ _ Hlock a o0 Ha0) as (o & Ha & Hkeys).
  rewrite Ha in Hslot.
  assert (Hget : getitem h a k = Some (PStr s)).
  { eapply slot_getitem; eauto. rewrite Hkeys. eapply unique_h0; eauto. }
  assert (Hsome : is_Some (getitem h a k)) by eauto.
  pose proof (getitem_is_Some_lt _ _ _ Hsome) as Halt.
  pose proof (lookup_lt_Some _ _ _ Ha0) as Halt0.
  pose proof (lock_length _ _ _ _ _ Hlock) as Hlen.
  destruct (services_h0 a i k s) as [Hpin Hterm]; [unfold slot; now rewrite Ha0 | done |].
  destruct (enrich_leaf B Sv retries tr st (length visited) s k a Hget Hs Hpin)
    as (h1 & Hstore & Hget1 & Henrich).
  destruct (store_record_spec _ _ _ (PStr s) Hsome) as (h1' & E & _ & _ & Hlen1 & Hother).
  fold h in Hstore, Hget1, Henrich. rewrite Hstore in E. injection E as <-.
  pose proof (store_record_container _ _ _ _ _ _ Ha Hsome Hstore) as Ha1.
  assert (Hst' : exists searches w d,
            enrich B Sv retries tr st (length visited) (PStr s, k, a)
            = Some (State B (<[length h :=
                      ODict (record_fields Sv tr (length visited) s searches)]> h1) w d)
            /\ (contains h0 a (str "price") = false -> searches = None)).
  { rewrite Henrich.
    rewrite (lockstep_contains _ _ _ _ _ a (str "price") Hlock Halt0 is_ascii_price).
    destruct (contains h0 a (str "price")) eqn:Hprice.
    - destruct (Hterm eq_refl (st_world B st) (st_driver B st))
        as [[[[w d] gs] gis] ->]. simpl. exists (Some (gs, gis)), w, d. done.
    - exists None, (st_world B st), (st_driver B st). done. }
  destruct Hst' as (searches & w & d & Hst' & Hnone).
  eexists. split; [exact Hst' |]. simpl.
  set (F := record_fields Sv tr (length visited) s searches).
  assert (Hold : forall a', (a' < length h)%nat -> (<[length h := ODict F]> h1) !! a' = h1 !! a')
    by (intros a' Ha'; apply list_lookup_insert_ne; lia).
  split.
  - rewrite length_insert. lia.
  - intros m v k' a' Hm.
    destruct (decide (m < length visited)%nat) as [Hlt | Hge].
    + rewrite lookup_app_l in Hm by done. eapply lock_leaves; eauto.
    + assert (m = length visited).
      { apply lookup_lt_Some in Hm. rewrite length_app in Hm. simpl in Hm. lia. }
      subst m. rewrite lookup_app_r, Nat.sub_diag in Hm by lia.
      injection Hm as <- <- <-. exists i, s. split; [done |]. split; [done |].
      unfold slot. now rewrite Ha0.
  - intros a' o0' Ha0'. destruct (lock_keys _ _ _ _ _ Hlock a' o0' Ha0') as (o' & Ha' & Hkeys').
    pose proof (lookup_lt_Some _ _ _ Ha') as Hlt'. rewrite Hold by done.
    destruct (decide (a' = a)) as [-> | Hne].
    + rewrite Ha in Ha'. injection Ha' as <-. rewrite Ha0 in Ha0'. injection Ha0' as <-.
      eexists. split; [exact Ha1 |]. rewrite <- Hkeys'.
      eapply replace_entry_keys; eauto.
    + rewrite Hother by done. eauto.
  - intros a' i' k' x' Hslot0' Hnot.
    rewrite map_app, in_app_iff in Hnot. simpl in Hnot.
    assert (Hslot' : slot h a' i' = Some (k', x'))
      by (apply (lock_slots _ _ _ _ _ Hlock a' i' k' x' Hslot0'); tauto).
    unfold slot in Hslot' |- *.
    destruct (h !! a') as [o'|] eqn:Ha'; [| done].
    pose proof (lookup_lt_Some _ _ _ Ha') as Hlt'. rewrite Hold by done.
    destruct (decide (a' = a)) as [-> | Hne].
    + rewrite Ha in Ha'. injection Ha' as <-. rewrite Ha1.
      apply replace_entry_lookup_ne; [done |]. intros ->. unfold position in Hnot. tauto.
    + rewrite Hother, Ha' by done. done.
  - intros m s' k' a' Hm.
    destruct (decide (m < length visited)%nat) as [Hlt | Hge].
    + rewrite lookup_app_l in Hm by done.
      destruct (lock_records _ _ _ _ _ Hlock m s' k' a' Hm)
        as (searches' & r & Hg & Hr0 & Hr & Hnone').
      exists searches', r.
      assert (Hpos : In (a', k') (map position visited)).
      { apply in_map_iff. exists (PStr s', k', a'). split; [done |].
        apply list_elem_of_In. eapply list_elem_of_lookup_2; eauto. }
      assert (Hg' : is_Some (getitem h a' k')) by eauto.
      apply getitem_is_Some_lt in Hg'.
      pose proof (lookup_lt_Some _ _ _ Hr) as Hrlt.
      split; [| split; [done |]].
      * rewrite <- Hg. rewrite (getitem_same _ _ a' k' (Hold a' Hg')).
        destruct (decide (a' = a)) as [-> | Hne].
        -- eapply getitem_replaced_ne; eauto. intros ->. done.
        -- apply getitem_same. now apply Hother.
      * rewrite Hold, Hother by lia. done.
    + assert (m = length visited).
      { apply lookup_lt_Some in Hm. rewrite length_app in Hm. simpl in Hm. lia. }
      subst m. rewrite lookup_app_r, Nat.sub_diag in Hm by lia.
      injection Hm as <- <- <-. exists searches, (length h).
      split; [| split; [lia |]].
      * rewrite getitem_insert_ne by lia. done.
      * split; [apply list_lookup_insert_eq; lia | exact Hnone].
Qed.

Lemma lockstep_slot_None h visited a o0 i :
  lockstep Sv tr h0 h visited -> h0 !! a = Some o0 -> container_items o0 !! i = None ->
  slot h a i = None.
Proof.
  intros Hlock Ha0 Hi. destruct (lock_keys _ _ _ _ _ Hlock a o0 Ha0) as (o & Ha & Hkeys).
  unfold slot. rewrite Ha. apply lookup_ge_None. apply lookup_ge_None in Hi.
  rewrite <- (length_map fst (container_items o)), Hkeys, length_map. done.
Qed.

(** The mutation pass, started where a walk of the untouched store [h0]
    has [everything] still to come to, none of it visited yet, runs to its
    end and leaves a record at every leaf the collection pass selects. *)
Lemma mutation_lockstep fuel :
  forall g everything (st : state B) visited,
    drain fuel select_all h0 g = Some everything ->
    NoDup (map position everything) ->
    (forall p, In p (map position everything) -> ~ In p (map position visited)) ->
    lockstep Sv tr h0 (st_heap B st) visited ->
    Forall (fun f => closed_value (length h0) (frame_root f)) g ->
    exists st',
      mutation_pass B Sv fuel retries tr st g (length visited) = Some st'
      /\ lockstep Sv tr h0 (st_heap B st')
           (visited ++ List.filter (selects valid_translate_value h0) everything).
Proof.
  induction fuel as [|n IH]; intros g everything st visited Hdrain Hnd Hfresh Hlock Hclosed;
    [done |].
  cbn [drain mutation_pass] in *.
  destruct g as [|[j|a i] rest].
  - injection Hdrain as <-. exists st. now rewrite app_nil_r.
  - apply Forall_cons in Hclosed as [Hj Hrest].
    assert (Hscalar : gen_step select_all h0 (FEnter j :: rest) = Silent rest ->
              gen_step valid_translate_value (st_heap B st) (FEnter j :: rest) = Silent rest ->
              exists st',
                match gen_step valid_translate_value (st_heap B st) (FEnter j :: rest) with
                | Done => Some st
                | Silent g' => mutation_pass B Sv n retries tr st g' (length visited)
                | Yield vkc g' =>
                    match enrich B Sv retries tr st (length visited) vkc with
                    | Some st' => mutation_pass B Sv n retries tr st' g' (S (length visited))
                    | None => None
                    end
                end = Some st'
                /\ lockstep Sv tr h0 (st_heap B st')
                     (visited ++ List.filter (selects valid_translate_value h0) everything)).
    { intros E0 E. rewrite E. rewrite E0 in Hdrain. now apply IH. }
    destruct j; try (now apply Hscalar).
    simpl in Hj. destruct (lookup_lt_is_Some_2 h0 a Hj) as [o0 Ha0].
    destruct (lock_keys _ _ _ _ _ Hlock a o0 Ha0) as (o & Ha & _).
    simpl in *. rewrite Ha0 in Hdrain. rewrite Ha.
    apply IH; try done. now constructor.
  - apply Forall_cons in Hclosed as [Ha Hrest]. simpl in Ha.
    destruct (lookup_lt_is_Some_2 h0 a Ha) as [o0 Ha0].
    cbn [gen_step] in *. unfold slot in Hdrain at 1. rewrite Ha0 in Hdrain.
    destruct (container_items o0 !! i) as [[k x]|] eqn:Hi.
    + unfold select_all at 1 in Hdrain.
      destruct (drain n select_all h0 (FEnter x :: FIter a (S i) :: rest))
        as [later|] eqn:Hlater; [| done].
      injection Hdrain as <-. simpl in Hnd. apply NoDup_cons in Hnd as [Hak Hnd].
      assert (Hslot0 : slot h0 a i = Some (k, x)) by (unfold slot; now rewrite Ha0).
      assert (Hnew : ~ In (a, k) (map position visited)) by (apply Hfresh; now left).
      rewrite (lock_slots _ _ _ _ _ Hlock a i k x Hslot0 Hnew).
      assert (Hx : closed_value (length h0) x).
      { eapply closed_h0; [exact Ha0 |]. apply list_elem_of_In.
        eapply list_elem_of_lookup_2; eauto. }
      assert (Hframes : Forall (fun f => closed_value (length h0) (frame_root f))
                          (FEnter x :: FIter a (S i) :: rest))
        by (repeat constructor; done).
      cbn [List.filter]. unfold selects at 1. cbn [fst snd].
      change (valid_translate_value (st_heap B st) x k a)
        with (valid_translate_value h0 x k a).
      destruct (valid_translate_value h0 x k a) eqn:Hsel.
      * destruct x as [| | | |s|]; try discriminate Hsel.
        assert (Hs : is_ascii s = false) by (simpl in Hsel; now destruct (is_ascii s)).
        destruct (lockstep_enrich st visited a i k s Hlock Hslot0 Hnew Hs)
          as (st1 & -> & Hlock1).
        destruct (IH _ later st1 (visited ++ [(PStr s, k, a)]) Hlater Hnd) as (st' & Hrun & Hlock').
        -- intros p Hp. rewrite map_app, in_app_iff. simpl. intros [Hv | [<- | []]].
           ++ eapply Hfresh; [right; exact Hp | exact Hv].
           ++ apply Hak. now apply list_elem_of_In.
        -- exact Hlock1.
        -- exact Hframes.
        -- rewrite length_app, Nat.add_1_r in Hrun. exists st'. split; [exact Hrun |].
           now rewrite <- app_assoc in Hlock'.
      * apply IH; try done. intros p Hp. apply Hfresh. now right.
    + rewrite (lockstep_slot_None _ _ _ _ _ Hlock Ha0 Hi). now apply IH.
Qed.

End Lockstep.

(** ** Deeper recursion, larger stores *)

Lemma for_entries_mono recur recur' vp h a entries ys :
  (forall x sub, recur x = Some sub -> recur' x = Some sub) ->
  for_entries recur vp h a entries = Some ys ->
  for_entries recur' vp h a entries = Some ys.
Proof.
  intros Hrec. unfold for_entries. revert ys.
  induction entries as [|[k x] entries IH]; intros ys; simpl; [done |].
  destruct (recur x) as [sub|] eqn:Hsub; simpl; [| done].
  rewrite (Hrec _ _ Hsub). simpl.
  destruct (for_yield _ entries) as [ys'|] eqn:Hys'; simpl; [| done].
  now rewrite (IH ys' eq_refl).
Qed.

Lemma traverse_json_mono d d' h j vp ys :
  (d <= d')%nat -> traverse_json d h j vp = Some ys -> traverse_json d' h j vp = Some ys.
Proof.
  revert d' j ys. induction d as [|d IH]; intros [|d'] j ys Hle; simpl; try done; [lia |].
  destruct j; try done. destruct (h !! a) as [[xs|kvs]|]; try done;
    apply for_entries_mono; intros x sub; apply IH; lia.
Qed.

Lemma closed_value_mono n n' v : (n <= n')%nat -> closed_value n v -> closed_value n' v.
Proof. intros Hle. destruct v; simpl; try done. lia. Qed.

Lemma reach_closed h v a :
  closed_store h -> closed_value (length h) v -> reach h v a -> (a < length h)%nat.
Proof.
  intros Hclosed Hv Hreach. induction Hreach as [a | a o k x b Ha Hin Hx IH]; [done |].
  apply IH. eapply Hclosed; eauto.
Qed.

(** Allocating more objects leaves a closed document as it is. *)
Lemma same_document_app h ext v :
  closed_store h -> closed_value (length h) v -> same_document h (h ++ ext) v.
Proof.
  intros Hclosed Hv a Hreach. apply lookup_app_l. eapply reach_closed; eauto.
Qed.

Lemma traverse_json_app d h ext v :
  closed_store h -> closed_value (length h) v ->
  traverse_json d (h ++ ext) v select_all = traverse_json d h v select_all.
Proof.
  intros Hclosed Hv. apply traverse_json_same.
  - now apply same_document_app.
  - intros a o k x _ _ _. reflexivity.
Qed.

Lemma closed_store_snoc h o :
  closed_store h ->
  (forall k x, In (k, x) (container_items o) -> closed_value (length h) x) ->
  closed_store (h ++ [o]).
Proof.
  intros Hclosed Ho a o' k x Ha Hin. rewrite length_app. simpl.
  apply (closed_value_mono (length h)); [lia |].
  destruct (decide (a < length h)%nat) as [Hlt | Hge].
  - rewrite lookup_app_l in Ha by done. eapply Hclosed; eauto.
  - rewrite lookup_app_r in Ha by lia.
    destruct (a - length h)%nat; [| done]. injection Ha as <-. eauto.
Qed.

Lemma unique_keys_snoc h o :
  unique_keys h -> NoDup (map fst (container_items o)) -> unique_keys (h ++ [o]).
Proof.
  intros Hunique Ho a o' Ha.
  destruct (decide (a < length h)%nat) as [Hlt | Hge].
  - rewrite lookup_app_l in Ha by done. eapply Hunique; eauto.
  - rewrite lookup_app_r in Ha by lia.
    destruct (a - length h)%nat; [| done]. now injection Ha as <-.
Qed.

(** ** A container over walked entries *)

Lemma for_entries_blocks recur h a entries unders :
  Forall2 (fun kx under => recur kx.2 = Some under) entries unders ->
  for_entries recur select_all h a entries = Some (blocks a entries unders).
Proof.
  unfold for_entries, blocks.
  induction 1 as [|[k x] under entries unders Hx _ IH]; [done |].
  cbn [for_yield zip_with concat fst snd] in *. rewrite Hx, IH. reflexivity.
Qed.

Lemma blocks_In a entries unders t :
  In t (blocks a entries unders) ->
  (t.2 = a /\ In t.1.2 (map fst entries)) \/ In t (concat unders).
Proof.
  unfold blocks. revert unders.
  induction entries as [|[k x] entries IH]; intros [|under unders]; simpl; try done.
  rewrite !in_app_iff. intros [<- | [Hin | Hin]].
  - left. simpl. auto.
  - auto.
  - destruct (IH unders Hin) as [[-> Hk] | Hu]; auto.
Qed.

Lemma position_eq (t t' : pyval * pykey * nat) :
  position t = position t' -> t.2 = t'.2 /\ t.1.2 = t'.1.2.
Proof. unfold position. now intros [= -> ->]. Qed.

Lemma blocks_NoDup a entries unders :
  NoDup (map fst entries) ->
  NoDup (map position (concat unders)) ->
  Forall (fun t : pyval * pykey * nat => t.2 <> a) (concat unders) ->
  NoDup (map position (blocks a entries unders)).
Proof.
  unfold blocks. revert unders.
  induction entries as [|[k x] entries IH]; intros [|under unders] Hkeys Hnd Hne;
    simpl; try constructor.
  all: simpl in Hkeys, Hnd, Hne; apply NoDup_cons in Hkeys as [Hk Hkeys].
  all: rewrite map_app in Hnd; apply NoDup_app in Hnd as (Hnd1 & Hdisj & Hnd2).
  all: apply Forall_app in Hne as [Hne1 Hne2].
  all: rewrite Forall_forall in Hne1, Hne2.
  - intros Hin. apply list_elem_of_fmap in Hin as (t & Ht & Hin).
    apply position_eq in Ht as [Ha Hkt]. simpl in Ha, Hkt.
    apply elem_of_app in Hin as [Hin | Hin].
    + now apply (Hne1 t Hin).
    + apply list_elem_of_In, (blocks_In a entries unders) in Hin as [[_ Hin] | Hin].
      * apply Hk. apply list_elem_of_In. now rewrite Hkt.
      * apply list_elem_of_In in Hin. now apply (Hne2 t Hin).
  - rewrite map_app. apply NoDup_app. split; [done |].
    split; [| apply IH; [done | done | now apply Forall_forall]].
    intros p Hp Hp'. apply list_elem_of_fmap in Hp' as (t & -> & Hin).
    apply list_elem_of_In, (blocks_In a entries unders) in Hin as [[Ha _] | Hin].
    + apply list_elem_of_fmap in Hp as (t' & Ht' & Hin').
      apply position_eq in Ht' as [Ha' _]. apply (Hne1 t' Hin'). congruence.
    + apply (Hdisj (position t)); [done |]. apply list_elem_of_fmap. exists t.
      split; [done |]. now apply list_elem_of_In.
Qed.

Lemma Forall2_traverse_app d h ext vs unders :
  closed_store h -> Forall (closed_value (length h)) vs ->
  Forall2 (fun v under => traverse_json d h v select_all = Some under) vs unders ->
  Forall2 (fun v under => traverse_json d (h ++ ext) v select_all = Some under) vs unders.
Proof.
  intros Hclosed Hvs HF. induction HF as [|v under vs unders Hv _ IH]; [constructor |].
  apply Forall_cons in Hvs as [Hcv Hvs]. constructor; [| now apply IH].
  now rewrite traverse_json_app.
Qed.

(** A new container over values loaded one after the other. *)
Lemma loaded_container before h vs o :
  loaded_seq before h vs ->
  map snd (container_items o) = vs ->
  NoDup (map fst (container_items o)) ->
  loaded before (h ++ [o]) (PRef (length h)).
Proof.
  intros ([ext ->] & Hclosed & Hunique & Hvs & depth & unders & HF & Hnd & Hrange) Hsnd Hkeys.
  assert (Hentry : forall k x, In (k, x) (container_items o) ->
            closed_value (length (before ++ ext)) x).
  { intros k x Hin. rewrite Forall_forall in Hvs. apply Hvs. rewrite <- Hsnd.
    apply list_elem_of_In. now apply (in_map snd) in Hin. }
  split; [exists (ext ++ [o]); now rewrite app_assoc |].
  split; [now apply closed_store_snoc |].
  split; [now apply unique_keys_snoc |].
  split; [simpl; rewrite !length_app; simpl; lia |].
  set (h := before ++ ext) in *.
  exists (S depth), (blocks (length h) (container_items o) unders).
  rewrite Forall_forall in Hrange.
  split; [| split].
  - assert (Hfor : traverse_json (S depth) (h ++ [o]) (PRef (length h)) select_all
                   = for_entries (fun x => traverse_json depth (h ++ [o]) x select_all)
                       select_all (h ++ [o]) (length h) (container_items o)).
    { simpl. rewrite lookup_app_r, Nat.sub_diag by lia. simpl. now destruct o. }
    rewrite Hfor. apply for_entries_blocks.
    apply (Forall2_traverse_app _ _ [o]) in HF; [| done | done].
    rewrite <- Hsnd in HF. now apply Forall2_fmap_l in HF.
  - apply blocks_NoDup; [done | done |]. apply Forall_forall. intros t Ht.
    specialize (Hrange t Ht). lia.
  - apply Forall_forall. intros t Ht. rewrite !length_app. simpl.
    apply list_elem_of_In, blocks_In in Ht as [[-> _] | Ht].
    + unfold h. rewrite length_app. lia.
    + apply list_elem_of_In in Ht. specialize (Hrange t Ht). lia.
Qed.

(** Loading values one after the other. *)
Lemma load_seq_loaded {A} (ld : A -> list pyobj -> list pyobj * pyval) (ok : A -> Prop) ts :
  Forall (fun t => ok t -> forall before, closed_store before -> unique_keys before ->
                   loaded before (ld t before).1 (ld t before).2) ts ->
  Forall ok ts ->
  forall before, closed_store before -> unique_keys before ->
    loaded_seq before (load_seq ld ts before).1 (load_seq ld ts before).2
    /\ length (load_seq ld ts before).2 = length ts.
Proof.
  induction ts as [|t ts IH]; intros Hld Hok before Hclosed Hunique; simpl.
  - split; [| done]. split; [exists []; now rewrite app_nil_r |].
    repeat (split; [done |]). exists 0%nat, []. repeat split; constructor.
  - apply Forall_cons in Hld as [Ht Hld]. apply Forall_cons in Hok as [Hokt Hok].
    specialize (Ht Hokt before Hclosed Hunique).
    destruct (ld t before) as [h1 v]. simpl in Ht.
    destruct Ht as ([ext1 ->] & Hclosed1 & Hunique1 & Hv & d1 & under & Hunder & Hnd1 & Hrange1).
    destruct (IH Hld Hok (before ++ ext1) Hclosed1 Hunique1) as [Hseq Hlen].
    destruct (load_seq ld ts (before ++ ext1)) as [h2 vs]. simpl in *.
    split; [| now rewrite Hlen].
    destruct Hseq as ([ext2 ->] & Hclosed2 & Hunique2 & Hvs & d2 & unders & HF & Hnd2 & Hrange2).
    split; [exists (ext1 ++ ext2); now rewrite app_assoc |].
    split; [done |]. split; [done |].
    split.
    { constructor; [| done].
      eapply closed_value_mono; [| exact Hv]. rewrite (length_app (before ++ ext1)). lia. }
    exists (Nat.max d1 d2), (under :: unders).
    rewrite Forall_forall in Hrange1, Hrange2.
    split; [| split].
    + constructor.
      * rewrite traverse_json_app by done.
        eapply traverse_json_mono; [| exact Hunder]. lia.
      * eapply Forall2_impl; [exact HF |]. intros x y Hxy. simpl in Hxy.
        eapply traverse_json_mono; [| exact Hxy]. lia.
    + simpl. rewrite map_app. apply NoDup_app. split; [done |]. split; [| done].
      intros p Hp Hp'. apply list_elem_of_fmap in Hp as (t1 & -> & Hin1).
      apply list_elem_of_fmap in Hp' as (t2 & Heq & Hin2).
      apply position_eq in Heq as [Ha _].
      specialize (Hrange1 t1 Hin1). specialize (Hrange2 t2 Hin2). lia.
    + simpl. apply Forall_app. split; apply Forall_forall; intros t' Ht'.
      * specialize (Hrange1 t' Ht'). rewrite (length_app (before ++ ext1)). lia.
      * specialize (Hrange2 t' Ht'). rewrite length_app in Hrange2. lia.
Qed.

(** ** Loading a menu *)

Lemma enumerate_values xs : map snd (enumerate xs) = xs.
Proof.
  apply list_eq. intros i. rewrite list_lookup_fmap.
  destruct (xs !! i) as [x|] eqn:Hx.
  - assert (H : enumerate xs !! i = Some (KIdx i, x)) by now apply enumerate_lookup.
    now rewrite H.
  - destruct (enumerate xs !! i) as [[k x]|] eqn:E; [| done].
    apply enumerate_lookup in E as [_ E]. congruence.
Qed.

Lemma enumerate_NoDup xs : NoDup (map fst (enumerate xs)).
Proof.
  rewrite enumerate_keys. apply NoDup_fmap_2; [| apply NoDup_seq].
  intros ? ? [=]. done.
Qed.

Lemma dict_set_new kvs k v : ~ In k (map fst kvs) -> dict_set kvs k v = kvs ++ [(k, v)].
Proof.
  induction kvs as [|[k0 v0] kvs IH]; simpl; intros Hk; [done |].
  destruct (decide (k0 = k)) as [-> | Hne]; [tauto |].
  rewrite IH; tauto.
Qed.

Lemma dict_of_unique pairs : NoDup (map fst pairs) -> dict_of pairs = pairs.
Proof.
  unfold dict_of.
  assert (H : forall acc, NoDup (map fst (acc ++ pairs)) ->
            fold_left (fun d (kv : list Z * pyval) => dict_set d kv.1 kv.2) pairs acc
            = acc ++ pairs).
  { induction pairs as [|[k v] pairs IH]; intros acc Hnd; simpl.
    - now rewrite app_nil_r.
    - rewrite dict_set_new.
      + rewrite IH; rewrite <- app_assoc; done.
      + rewrite map_app in Hnd. apply NoDup_app in Hnd as (_ & Hdisj & _).
        intros Hin. apply (Hdisj k); [now apply list_elem_of_In | simpl; left]. }
  intros Hnd. now apply (H []).
Qed.

Lemma unique_names_array elems :
  unique_names (JArray elems) <-> Forall unique_names elems.
Proof.
  simpl. induction elems as [|t elems IH]; [split; [constructor | done] |].
  rewrite Forall_cons, IH. done.
Qed.

Lemma unique_names_object members :
  unique_names (JObject members)
  <-> NoDup (map fst members) /\ Forall (fun kt => unique_names (snd kt)) members.
Proof.
  simpl. apply and_iff_compat_l.
  induction members as [|kt members IH]; [split; [constructor | done] |].
  rewrite Forall_cons, IH. done.
Qed.

Section JsonInduction.

Variable P : json -> Prop.
Hypothesis P_null : P JNull.
Hypothesis P_bool : forall b, P (JBool b).
Hypothesis P_int : forall n, P (JInt n).
Hypothesis P_float : forall l, P (JFloat l).
Hypothesis P_string : forall s, P (JString s).
Hypothesis P_array : forall elems, Forall P elems -> P (JArray elems).
Hypothesis P_object : forall members, Forall (fun kt => P (snd kt)) members -> P (JObject members).

Fixpoint json_nested_ind (t : json) : P t :=
  match t with
  | JNull => P_null
  | JBool b => P_bool b
  | JInt n => P_int n
  | JFloat l => P_float l
  | JString s => P_string s
  | JArray elems =>
      P_array elems
        ((fix all (l : list json) : Forall P l :=
            match l with
            | [] => @List.Forall_nil _ P
            | t :: r => @List.Forall_cons _ P t r (json_nested_ind t) (all r)
            end) elems)
  | JObject members =>
      P_object members
        ((fix all (l : list (list Z * json)) : Forall (fun kt => P (snd kt)) l :=
            match l with
            | [] => @List.Forall_nil _ (fun kt => P (snd kt))
            | kt :: r =>
                @List.Forall_cons _ (fun kt => P (snd kt)) kt r (json_nested_ind (snd kt)) (all r)
            end) members)
  end.

End JsonInduction.

Lemma loaded_scalar before v :
  closed_store before -> unique_keys before -> is_container v = false ->
  loaded before before v.
Proof.
  intros Hclosed Hunique Hv. split; [exists []; now rewrite app_nil_r |].
  repeat (split; [done |]). split; [now destruct v |].
  exists 1%nat, []. split; [now destruct v |]. split; constructor.
Qed.

(** What [json.load] builds is a document. *)
Lemma load_loaded t :
  unique_names t ->
  forall before, closed_store before -> unique_keys before ->
    loaded before (load t before).1 (load t before).2.
Proof.
  induction t as [| | | | |elems IH|members IH] using json_nested_ind;
    intros Hnames before Hclosed Hunique; try (now apply loaded_scalar).
  - apply unique_names_array in Hnames.
    destruct (load_seq_loaded load unique_names elems IH Hnames before Hclosed Hunique)
      as [Hseq Hlen].
    simpl. destruct (load_seq load elems before) as [h vs]. simpl in *.
    apply (loaded_container before h vs (OList vs) Hseq).
    + apply enumerate_values.
    + apply enumerate_NoDup.
  - apply unique_names_object in Hnames as [Hkeys Hnames].
    destruct (load_seq_loaded (fun kt => load (snd kt)) (fun kt => unique_names (snd kt))
                members IH Hnames before Hclosed Hunique) as [Hseq Hlen].
    simpl. destruct (load_seq (fun kt => load (snd kt)) members before) as [h vs]. simpl in *.
    assert (Hfst : map fst (zip (map fst members) vs) = map fst members)
      by (apply fst_zip; rewrite length_map; lia).
    assert (Hsnd : map snd (zip (map fst members) vs) = vs)
      by (apply snd_zip; rewrite length_map; lia).
    rewrite dict_of_unique by now rewrite Hfst.
    apply (loaded_container before h vs _ Hseq); simpl.
    + unfold items. rewrite map_map. simpl. exact Hsnd.
    + rewrite items_keys, Hfst. apply NoDup_fmap_2; [| done]. intros ? ? [=]. done.
Qed.

Lemma load_document t :
  unique_names t -> document (load t []).1 (load t []).2.
Proof.
  intros Hnames.
  destruct (load_loaded t Hnames []) as (_ & Hclosed & Hunique & Hroot & d & ev & Hev & Hnd & _).
  - intros a o k x Ha. done.
  - intros a o Ha. done.
  - repeat (split; [done |]). eauto.
Qed.

(** ** The two passes over a menu *)

Lemma lockstep_start Sv tr h0 : lockstep Sv tr h0 h0 [].
Proof.
  split.
  - done.
  - intros m v k a Hm. done.
  - intros a o0 Ha. eauto.
  - intros a i k x Hslot _. done.
  - intros m s k a Hm. done.
Qed.

Lemma lockstep_field Sv tr h0 h visited j s k a :
  lockstep Sv tr h0 h visited -> visited !! j = Some (PStr s, k, a) ->
  field h a k (str "value") = Some (PStr s)
  /\ field h a k (str "translation")
     = PStr <$> (tr ≫= fun translations => translations !! j).
Proof.
  intros Hlock Hj.
  destruct (lock_records _ _ _ _ _ Hlock j s k a Hj) as (searches & r & Hget & _ & Hr & _).
  assert (Hrec : record_at h a k = Some (record_fields Sv tr j s searches))
    by (unfold record_at; now rewrite Hget, Hr).
  rewrite !(field_record _ _ _ _ _ Hrec).
  destruct (record_fields_get Sv tr j s searches) as (-> & _ & _ & _ & ->). done.
Qed.

Lemma translation_attached (tr : option (list (list Z))) j (f : option pyval) :
  f = PStr <$> (tr ≫= fun translations => translations !! j) ->
  (is_Some f <-> exists translations, tr = Some translations /\ (j < length translations)%nat)
  /\ (forall translations t,
        tr = Some translations -> translations !! j = Some t -> f = Some (PStr t)).
Proof.
  intros ->. split; [split |].
  - destruct tr as [ts|]; simpl; [| intros [x Hx]; done].
    destruct (ts !! j) eqn:Hj; simpl; [| intros [x Hx]; done].
    intros _. exists ts. split; [done |]. eapply lookup_lt_Some; eauto.
  - intros (ts & -> & Hj). simpl.
    destruct (lookup_lt_is_Some_2 ts j Hj) as [t ->]. simpl. eauto.
  - intros ts t -> Hj. simpl. now rewrite Hj.
Qed.

(** C2: over a loaded menu, with library calls and lookups that return at
    its selected leaves, the mutation pass runs to its end and leaves, at
    the [j]-th position the collection pass came to, a record holding the
    leaf under [value]; that record has a
    [translation] exactly when the request returned and has a [j]-th answer,
    and then it is that answer.  The pairing is by position, so equal
    leaves get the answers of their own positions; when the request fails
    no record has a [translation]. *)
Theorem translations_by_position (B : browser) (Sv : services) retries
    (w : world B) (driver : nat) h0 root :
  document h0 root ->
  services_return B Sv retries h0 ->
  exists triples n,
    (exists depth, traverse_json depth h0 root valid_translate_value = Some triples)
    /\ forall fuel, (n <= fuel)%nat ->
         collect fuel h0 root = Some (map (fun t : pyval * pykey * nat => t.1.1) triples)
         /\ exists st',
              process_menu B Sv fuel retries (State B h0 w driver) root = Some st'
              /\ forall j value key context,
                   triples !! j = Some (value, key, context) ->
                   field (st_heap B st') context key (str "value") = Some value
                   /\ (is_Some (field (st_heap B st') context key (str "translation"))
                       <-> exists translations,
                             translate_text Sv
                               (map (fun t : pyval * pykey * nat => t.1.1) triples)
                             = Some translations
                             /\ (j < length translations)%nat)
                   /\ (forall translations t,
                         translate_text Sv
                           (map (fun t : pyval * pykey * nat => t.1.1) triples)
                         = Some translations ->
                         translations !! j = Some t ->
                         field (st_heap B st') context key (str "translation")
                         = Some (PStr t)).
Proof.
  intros (Hroot & Hclosed & Hunique & depth & everything & Hev & Hnd) Hterm.
  set (triples := List.filter (selects valid_translate_value h0) everything).
  assert (Htr : traverse_json depth h0 root valid_translate_value = Some triples)
    by (rewrite traverse_json_select_all, Hev; done).
  destruct (drain_traverse_json _ _ _ _ _ Hev) as [n1 Hn1].
  destruct (drain_traverse_json _ _ _ _ _ Htr) as [n2 Hn2].
  exists triples, (Nat.max n1 n2). split; [eauto |].
  intros fuel Hfuel.
  assert (Hcollect : collect fuel h0 root
                     = Some (map (fun t : pyval * pykey * nat => t.1.1) triples)).
  { unfold collect. replace fuel with (n2 + (fuel - n2))%nat by lia. now rewrite Hn2. }
  split; [exact Hcollect |].
  unfold process_menu. cbn [st_heap]. rewrite Hcollect. simpl.
  set (tr := translate_text Sv _).
  specialize (Hn1 (fuel - n1)%nat). replace (n1 + (fuel - n1))%nat with fuel in Hn1 by lia.
  destruct (mutation_lockstep B Sv retries tr h0 Hclosed Hunique Hterm fuel
              (traverse_json_gen root) everything (State B h0 w driver) [])
    as (st' & Hrun & Hlock).
  - exact Hn1.
  - exact Hnd.
  - intros p _ [].
  - apply lockstep_start.
  - repeat constructor. exact Hroot.
  - exists st'. split; [exact Hrun |]. simpl in Hlock. fold triples in Hlock.
    intros j value key context Hj.
    assert (Hsel : selects valid_translate_value h0 (value, key, context) = true).
    { apply list_elem_of_lookup_2, list_elem_of_In in Hj.
      unfold triples in Hj. now apply filter_In in Hj as [_ Hj]. }
    destruct value as [| | | |s|]; try discriminate Hsel.
    destruct (lockstep_field _ _ _ _ _ _ _ _ _ Hlock Hj) as [Hvalue Htrans].
    split; [exact Hvalue |]. now apply translation_attached.
Qed.

Lemma sample_menu_unique_names : unique_names sample_menu.
Proof.
  simpl. repeat split; repeat constructor; try (intros H; inversion H; fail).
  rewrite elem_of_cons. intros [H | H]; [vm_compute in H; congruence | inversion H].
Qed.

Lemma steady_lookups_return (w : world steady) d s :
  is_Some (lookups steady numbering 1 w d s).
Proof. destruct w. eexists. reflexivity. Qed.

Lemma steady_services_return h0 : services_return steady numbering 1 h0.
Proof.
  intros a i k s _ _. split.
  - intros _. eexists. reflexivity.
  - intros _ w d. apply steady_lookups_return.
Qed.

Lemma translations_by_position_witness :
  exists triples n,
    (exists depth,
       traverse_json depth sample_heap sample_root valid_translate_value = Some triples)
    /\ forall fuel, (n <= fuel)%nat ->
         collect fuel sample_heap sample_root
         = Some (map (fun t : pyval * pykey * nat => t.1.1) triples)
         /\ exists st',
              process_menu steady numbering fuel 1 (State steady sample_heap tt 0%nat)
                sample_root = Some st'
              /\ forall j value key context,
                   triples !! j = Some (value, key, context) ->
                   field (st_heap steady st') context key (str "value") = Some value
                   /\ (is_Some (field (st_heap steady st') context key (str "translation"))
                       <-> exists translations,
                             translate_text numbering
                               (map (fun t : pyval * pykey * nat => t.1.1) triples)
                             = Some translations
                             /\ (j < length translations)%nat)
                   /\ (forall translations t,
                         translate_text numbering
                           (map (fun t : pyval * pykey * nat => t.1.1) triples)
                         = Some translations ->
                         translations !! j = Some t ->
                         field (st_heap steady st') context key (str "translation")
                         = Some (PStr t)).
Proof.
  apply (translations_by_position steady numbering 1 tt 0%nat sample_heap sample_root).
  - exact (load_document sample_menu sample_menu_unique_names).
  - exact (steady_services_return sample_heap).
Defined.

(** The sample menu after both passes: the two dishes of the same name
    have the translations of their own positions; with the request failing
    no record has a translation. *)
Example sample_menu_processed :
  (exists st',
     process_menu steady numbering 40 1 (State steady sample_heap tt 0%nat) sample_root
       = Some st'
     /\ map (fun p : nat * pykey => field (st_heap steady st') p.1 p.2 (str "translation"))
          [(0%nat, KStr (str "name")); (1%nat, KStr (str "name")); (2%nat, KIdx 2)]
        = [Some (PStr (str "T0")); Some (PStr (str "T1")); Some (PStr (str "T2"))]
     /\ field (st_heap steady st') 0%nat (KStr (str "name")) (str "knowledge_graph")
        = Some (PStr (str "Peking duck"))
     /\ field (st_heap steady st') 1%nat (KStr (str "name")) (str "knowledge_graph") = None)
  /\ (exists st',
        process_menu steady untranslated 40 1 (State steady sample_heap tt 0%nat) sample_root
          = Some st'
        /\ map (fun p : nat * pykey => field (st_heap steady st') p.1 p.2 (str "translation"))
             [(0%nat, KStr (str "name")); (1%nat, KStr (str "name")); (2%nat, KIdx 2)]
           = [None; None; None]).
Proof. split; eexists; repeat split; reflexivity. Qed.

(** * Further properties *)

(** ** The two string tests against each other *)


(** ** A store that is not a tree *)

Lemma for_entries_None recur vp h a entries k x :
  In (k, x) entries -> recur x = None -> for_entries recur vp h a entries = None.
Proof.
  intros Hin Hx. unfold for_entries.
  induction entries as [|[k' x'] entries IH]; [destruct Hin |].
  simpl. destruct Hin as [[= -> ->] | Hin].
  - now rewrite Hx.
  - destruct (recur x'); [| done]. simpl. now rewrite IH.
Qed.

Lemma traverse_json_reaches_cycle depth h a vp :
  (exists o k x, h !! a = Some o /\ In (k, x) (container_items o) /\ reach h x a) ->
  forall v, reach h v a -> traverse_json depth h v vp = None.
Proof.
  intros Hcycle. induction depth as [|d IH]; intros v Hv; [done |].
  assert (Hstep : forall b o k x,
            h !! b = Some o -> In (k, x) (container_items o) -> reach h x a ->
            traverse_json (S d) h (PRef b) vp = None).
  { intros b o k x Hb Hin Hx. simpl. rewrite Hb.
    destruct o as [xs|kvs]; eapply for_entries_None; eauto. }
  inversion Hv as [a' | b o k x a' Hb Hin Hx]; subst.
  - destruct Hcycle as (o & k & x & Ha & Hin & Hx). eauto.
  - eauto.
Qed.

(** X2: a walk of a list or dict that holds itself, directly or through
    other containers, never completes: whatever the bound on the recursion,
    it ends in the failure of that bound. *)
Theorem traverse_json_cycle_fails depth h a o k x vp :
  h !! a = Some o -> In (k, x) (container_items o) -> reach h x a ->
  traverse_json depth h (PRef a) vp = None.
Proof.
  intros Ha Hin Hx. apply (traverse_json_reaches_cycle depth h a vp).
  - eauto 6.
  - constructor.
Qed.

Lemma traverse_json_cycle_fails_witness :
  traverse_json 1000 self_heap (PRef 0%nat) valid_translate_value = None.
Proof.
  apply (traverse_json_cycle_fails 1000 self_heap 0%nat (OList [PRef 0%nat]) (KIdx 0)
           (PRef 0%nat) valid_translate_value).
  - reflexivity.
  - now left.
  - constructor.
Defined.

(** ** One call of [get_page] *)

Lemma get_page_xpaths_length (B : browser) xpaths :
  forall (w : world B) d results rs,
    (get_page_xpaths B w d xpaths results).2 = Some rs ->
    (length rs <= length results + length xpaths)%nat.
Proof.
  induction xpaths as [|[xpath attr] xpaths IH]; intros w d results rs; simpl.
  - intros [= <-]. lia.
  - assert (Hmore : forall w', (get_page_xpaths B w' d xpaths results).2 = Some rs ->
              (length rs <= length results + S (length xpaths))%nat).
    { intros w' H. apply IH in H. lia. }
    assert (Hpush : forall w' v,
              (get_page_xpaths B w' d xpaths (results ++ [v])).2 = Some rs ->
              (length rs <= length results + S (length xpaths))%nat).
    { intros w' v H. apply IH in H. rewrite length_app in H. simpl in H. lia. }
    destruct (find_element_by_xpath B w d xpath) as [w1 [el | [|]]]; simpl; eauto; [| done].
    destruct (startswith_at attr).
    + destruct (get_attribute B w1 el (tail attr)) as [w2 [v | [|]]]; simpl; eauto; done.
    + destruct (getattr B w1 el attr) as [w2 [v | [|]]]; simpl; eauto; done.
Qed.

(** X3: a call of [get_page] asks the browser for exactly one page,
    whatever happens afterwards; it returns at most one result per xpath
    (an element that cannot be read is skipped, not padded); and when the
    page does not load it returns the empty list without asking for any
    element. *)
Theorem get_page_one_page_bounded_results (B : browser) :
  (forall (w : world (counting B)) url xpaths d,
      (get_page (counting B) w url xpaths d).1.2 = S w.2)
  /\ (forall (w : world B) url xpaths d rs,
        (get_page B w url xpaths d).2 = Some rs -> (length rs <= length xpaths)%nat)
  /\ (forall (w w' : world B) url xpaths d e,
        driver_get B w d url = (w', Raises e) ->
        get_page B w url xpaths d = (w', Some [])).
Proof.
  split; [| split].
  - intros w url xpaths d. apply get_page_navigations.
  - intros w url xpaths d rs. unfold get_page.
    destruct (driver_get B w d url) as [w1 [[] | e]]; simpl.
    + intros H. apply get_page_xpaths_length in H. simpl in H. lia.
    + intros [= <-]. simpl. lia.
  - intros w w' url xpaths d e. apply get_page_navigation_raises.
Qed.

(** X4: whatever the image lookup meets, the driver the body goes on with
    after both lookups is the one the knowledge-panel loop ended with: the
    image loop runs on that driver from its first round to its last and
    hands it back. *)
Theorem lookups_driver_from_first_loop (B : browser) (Sv : services) retries
    (w w' : world B) d d' s gs gis :
  lookups B Sv retries w d s = Some (w', d', gs, gis) ->
  exists w1,
    google_search_loop B Sv retries w d s = Some (w1, d', gs)
    /\ google_img_search_loop B Sv retries w1 d' (Some gs) s = Some (w', d', gis).
Proof.
  unfold lookups.
  destruct (google_search_loop B Sv retries w d s) as [[[w1 d1] gs1]|]; simpl; [| done].
  destruct (google_img_search_loop B Sv retries w1 d1 (Some gs1) s)
    as [[[w2 d2] gis2]|] eqn:E2; simpl; [| done].
  intros [= <- <- <- <-]. exists w1.
  pose proof (google_img_search_loop_keeps_driver B Sv retries _ _ _ _ _ _ _ E2) as ->.
  done.
Qed.

Lemma lookups_driver_from_first_loop_witness :
  exists w1,
    google_search_loop (brittle 9) numbering 3 [6%nat] 0%nat ni_hao
      = Some (w1, 0%nat, [PStr (str "Peking duck"); PStr (str "Peking duck")])
    /\ google_img_search_loop (brittle 9) numbering 3 w1 0%nat
         (Some [PStr (str "Peking duck"); PStr (str "Peking duck")]) ni_hao
       = Some ([0%nat], 0%nat, []).
Proof.
  apply (lookups_driver_from_first_loop (brittle 9) numbering 3 [6%nat] [0%nat]
           0%nat 0%nat ni_hao).
  reflexivity.
Defined.

(** ** A menu without a selected leaf *)

Lemma mutation_pass_no_yield (B : browser) (Sv : services) fuel retries tr :
  forall (st : state B) g j,
    drain fuel valid_translate_value (st_heap B st) g = Some [] ->
    mutation_pass B Sv fuel retries tr st g j = Some st.
Proof.
  induction fuel as [|n IH]; intros st g j; [done |].
  cbn [drain mutation_pass].
  destruct (gen_step valid_translate_value (st_heap B st) g) as [|g'|t g']; [done | |].
  - apply IH.
  - destruct (drain n valid_translate_value (st_heap B st) g'); done.
Qed.

(** X5: when the collection pass finds no leaf to translate, the
    processing of the menu returns with the store, the browsers and the
    driver as they were: no record is made and no page is loaded. *)
Theorem process_menu_nothing_selected (B : browser) (Sv : services) fuel retries
    (st : state B) root :
  collect fuel (st_heap B st) root = Some [] ->
  process_menu B Sv fuel retries st root = Some st.
Proof.
  intros Hcollect. unfold process_menu. rewrite Hcollect. simpl.
  apply mutation_pass_no_yield. unfold collect in Hcollect.
  destruct (drain fuel valid_translate_value (st_heap B st) (traverse_json_gen root))
    as [[|t ts]|]; done.
Qed.

Lemma process_menu_nothing_selected_witness :
  process_menu (brittle 9) numbering 10 1 (State (brittle 9) ascii_heap [9%nat] 0%nat)
    (PRef 0%nat)
  = Some (State (brittle 9) ascii_heap [9%nat] 0%nat).
Proof.
  apply (process_menu_nothing_selected (brittle 9) numbering 10 1
           (State (brittle 9) ascii_heap [9%nat] 0%nat) (PRef 0%nat)).
  reflexivity.
Defined.

(** ** What the body changes and what it leaves *)

Lemma dict_get_slot kvs k x :
  dict_get kvs k = Some x -> exists i, kvs !! i = Some (k, x).
Proof.
  induction kvs as [|[k0 v0] kvs IH]; simpl; [done |].
  destruct (decide (k0 = k)) as [-> | Hne].
  - intros [= ->]. now exists 0%nat.
  - intros H. destruct (IH H) as [i Hi]. now exists (S i).
Qed.

Lemma getitem_slot h a o k x :
  h !! a = Some o -> getitem h a k = Some x ->
  exists i, container_items o !! i = Some (k, x).
Proof.
  intros Ha. unfold getitem. rewrite Ha.
  destruct o as [xs|kvs], k as [i|k]; try done; simpl.
  - intros Hx. exists i. now apply enumerate_lookup.
  - intros Hx. destruct (dict_get_slot _ _ _ Hx) as [i Hi].
    exists i. apply items_lookup. eauto.
Qed.

(** X6: the body, run on a selected leaf on which the library calls
    return, returns and adds exactly one object to the store, leaves every
    other list and dict as it was, keeps the keys of the container in their
    order (so its size does not change under the walk that is going on),
    and leaves the container's other entries. *)
Theorem enrich_frame (B : browser) (Sv : services) retries tr (st : state B)
    j s key context :
  getitem (st_heap B st) context key = Some (PStr s) ->
  is_ascii s = false ->
  (strip (strip_ascii s) <> [] -> is_Some (pinyin_get Sv (strip_ascii s))) ->
  (contains (st_heap B st) context (str "price") = true ->
   is_Some (lookups B Sv retries (st_world B st) (st_driver B st) s)) ->
  exists st',
    enrich B Sv retries tr st j (PStr s, key, context) = Some st'
    /\ length (st_heap B st') = S (length (st_heap B st))
    /\ (forall a, a <> context -> (a < length (st_heap B st))%nat ->
          st_heap B st' !! a = st_heap B st !! a)
    /\ (exists o o',
          st_heap B st !! context = Some o /\ st_heap B st' !! context = Some o'
          /\ map fst (container_items o') = map fst (container_items o))
    /\ (forall key', key' <> key ->
          getitem (st_heap B st') context key' = getitem (st_heap B st) context key').
Proof.
  intros Hget Hs Hpin Hterm. set (h := st_heap B st) in *.
  assert (Hsome : is_Some (getitem h context key)) by eauto.
  pose proof (getitem_is_Some_lt _ _ _ Hsome) as Hctx.
  destruct (lookup_lt_is_Some_2 h context Hctx) as [o Ho].
  destruct (enrich_leaf B Sv retries tr st j s key context Hget Hs Hpin)
    as (h1 & Hstore & Hget1 & Henrich).
  fold h in Hstore, Hget1, Henrich.
  destruct (store_record_spec _ _ _ (PStr s) Hsome) as (h1' & E & _ & _ & Hlen1 & Hother).
  rewrite Hstore in E. injection E as <-.
  pose proof (store_record_container _ _ _ _ _ _ Ho Hsome Hstore) as Ho1.
  assert (Hst' : exists F w d,
            enrich B Sv retries tr st j (PStr s, key, context)
            = Some (State B (<[length h := ODict F]> h1) w d)).
  { rewrite Henrich. destruct (contains h context (str "price")); [| eauto].
    destruct Hterm as [[[[w d] gs] gis] ->]; [done |]. simpl. eauto. }
  destruct Hst' as (F & w & d & ->). eexists. split; [reflexivity |]. simpl.
  assert (Hold : forall a, (a < length h)%nat -> (<[length h := ODict F]> h1) !! a = h1 !! a)
    by (intros a Ha; apply list_lookup_insert_ne; lia).
  split; [now rewrite length_insert |].
  split; [intros a Hne Ha; rewrite Hold by done; now apply Hother |].
  split.
  - exists o, (replace_entry o key (PRef (length h))).
    split; [done |]. split; [now rewrite Hold |].
    destruct (getitem_slot _ _ _ _ _ Ho Hget) as [i Hi].
    eapply replace_entry_keys; eauto.
  - intros key' Hne. rewrite (getitem_same _ _ context key' (Hold context Hctx)).
    eapply getitem_replaced_ne; eauto.
Qed.

Lemma enrich_frame_witness :
  exists st',
    enrich (brittle 9) numbering 1 None (State (brittle 9) price_dict_heap [9%nat] 0%nat) 0
      (PStr ni_hao, KStr (str "name"), 0%nat) = Some st'
    /\ length (st_heap _ st') = 2%nat
    /\ (forall a, a <> 0%nat -> (a < 1)%nat -> st_heap _ st' !! a = price_dict_heap !! a)
    /\ (exists o o',
          price_dict_heap !! 0%nat = Some o /\ st_heap _ st' !! 0%nat = Some o'
          /\ map fst (container_items o') = map fst (container_items o))
    /\ (forall key', key' <> KStr (str "name") ->
          getitem (st_heap _ st') 0%nat key' = getitem price_dict_heap 0%nat key').
Proof.
  apply (enrich_frame (brittle 9) numbering 1 None
           (State (brittle 9) price_dict_heap [9%nat] 0%nat) 0 ni_hao
           (KStr (str "name")) 0%nat).
  - reflexivity.
  - reflexivity.
  - intros _. eexists. reflexivity.
  - intros _. vm_compute. eauto.
Defined.

(** ** The order of a record's keys *)

Lemma record_fields_keys Sv tr j s searches :
  map fst (record_fields Sv tr j s searches) `sublist_of` record_keys.
Proof.
  unfold record_fields, set_if, record_keys.
  destruct (pinyin_field Sv s);
    destruct searches as [[gs gis]|];
    try destruct (bool_decide (0 < length gs)%nat);
    try destruct (bool_decide (0 < length gis)%nat);
    destruct tr as [ts|]; try destruct (ts !! j);
    repeat (progress (cbn [dict_set]; str_decide)); cbn [map fst];
    repeat first [apply sublist_nil | apply sublist_skip | apply sublist_cons].
Qed.

(** X7: the record the body makes for a selected leaf, on which the
    library calls return, lists its keys in a fixed order,
    [value], [pinyin], [knowledge_graph], [google_image], [translation],
    each at most once and [value] first; this is the order in which the
    written file shows them. *)
Theorem record_key_order (B : browser) (Sv : services) retries tr (st : state B)
    j s key context :
  getitem (st_heap B st) context key = Some (PStr s) ->
  is_ascii s = false ->
  (strip (strip_ascii s) <> [] -> is_Some (pinyin_get Sv (strip_ascii s))) ->
  (contains (st_heap B st) context (str "price") = true ->
   is_Some (lookups B Sv retries (st_world B st) (st_driver B st) s)) ->
  exists st' kvs,
    enrich B Sv retries tr st j (PStr s, key, context) = Some st'
    /\ record_at (st_heap B st') context key = Some kvs
    /\ map fst kvs `sublist_of` record_keys
    /\ head kvs = Some (str "value", PStr s).
Proof.
  intros Hget Hs Hpin Hterm.
  destruct (enrich_leaf_field B Sv retries tr st j s key context Hget Hs Hpin Hterm)
    as (st' & Hst' & Hrec).
  exists st', (record_fields Sv tr j s (searches_of B Sv retries st context s)).
  split; [done |]. split; [done |]. split; [apply record_fields_keys |].
  unfold record_fields, set_if.
  destruct (pinyin_field Sv s);
    destruct (searches_of B Sv retries st context s) as [[gs gis]|];
    try destruct (bool_decide (0 < length gs)%nat);
    try destruct (bool_decide (0 < length gis)%nat);
    destruct tr as [ts|]; try destruct (ts !! j);
    repeat (progress (cbn [dict_set]; str_decide)); reflexivity.
Qed.

Lemma record_key_order_witness :
  exists st' kvs,
    enrich steady numbering 1 (Some [str "Roast Duck"])
      (State steady price_dict_heap tt 0%nat) 0
      (PStr ni_hao, KStr (str "name"), 0%nat) = Some st'
    /\ record_at (st_heap _ st') 0%nat (KStr (str "name")) = Some kvs
    /\ map fst kvs `sublist_of` record_keys
    /\ head kvs = Some (str "value", PStr ni_hao).
Proof.
  apply (record_key_order steady numbering 1 (Some [str "Roast Duck"])
           (State steady price_dict_heap tt 0%nat) 0 ni_hao (KStr (str "name")) 0%nat).
  - reflexivity.
  - reflexivity.
  - intros _. eexists. reflexivity.
  - intros _. vm_compute. eauto.
Defined.

(** ** Walking a processed container again *)

Lemma for_entries_yields recur vp h a entries ys k x :
  for_entries recur vp h a entries = Some ys -> In (k, x) entries ->
  exists sub,
    recur x = Some sub
    /\ (vp h x k a = true -> In (x, k, a) ys)
    /\ (forall t, In t sub -> In t ys).
Proof.
  unfold for_entries. revert ys.
  induction entries as [|[k' x'] entries IH]; intros ys Hys Hin; [destruct Hin |].
  simpl in Hys.
  destruct (recur x') as [sub'|] eqn:Hsub'; simpl in Hys; [| done].
  destruct (for_yield _ entries) as [ys'|] eqn:Hys'; simpl in Hys; [| done].
  injection Hys as <-. destruct Hin as [[= -> ->] | Hin].
  - exists sub'. split; [done |]. split.
    + intros ->. rewrite !in_app_iff. left. left. now left.
    + intros t Ht. rewrite !in_app_iff. left. now right.
  - destruct (IH ys' eq_refl Hin) as (sub & Hsub & Hown & Hunder).
    exists sub. split; [done |]. split.
    + intros Hvp. rewrite in_app_iff. right. auto.
    + intros t Ht. rewrite in_app_iff. right. auto.
Qed.

Lemma traverse_json_container depth h a o vp :
  h !! a = Some o ->
  traverse_json (S depth) h (PRef a) vp
  = for_entries (fun x => traverse_json depth h x vp) vp h a (container_items o).
Proof. intros Ha. simpl. rewrite Ha. now destruct o. Qed.

(** X8: the processing is not idempotent.  Once the body has replaced a
    selected leaf, on which the library calls return, by its record, a new
    walk of the container comes to the record and selects the leaf again,
    now as the record's [value]. *)
Theorem rewalk_selects_value (B : browser) (Sv : services) retries tr (st : state B)
    j s key context :
  getitem (st_heap B st) context key = Some (PStr s) ->
  is_ascii s = false ->
  (strip (strip_ascii s) <> [] -> is_Some (pinyin_get Sv (strip_ascii s))) ->
  (contains (st_heap B st) context (str "price") = true ->
   is_Some (lookups B Sv retries (st_world B st) (st_driver B st) s)) ->
  exists st' r,
    enrich B Sv retries tr st j (PStr s, key, context) = Some st'
    /\ getitem (st_heap B st') context key = Some (PRef r)
    /\ forall depth ys,
         traverse_json (S (S depth)) (st_heap B st') (PRef context) valid_translate_value
         = Some ys ->
         In (PStr s, KStr (str "value"), r) ys.
Proof.
  intros Hget Hs Hpin Hterm.
  destruct (enrich_leaf_field B Sv retries tr st j s key context Hget Hs Hpin Hterm)
    as (st' & Hst' & Hrec).
  set (h' := st_heap B st') in *. unfold record_at in Hrec.
  destruct (getitem h' context key) as [[| | | | |r]|] eqn:Hget'; try done.
  destruct (h' !! r) as [[|F]|] eqn:Hr; try done. injection Hrec as HF.
  exists st', r. split; [done |]. split; [done |].
  intros depth ys Hys.
  assert (Hctx : is_Some (getitem h' context key)) by eauto.
  apply getitem_is_Some_lt in Hctx.
  destruct (lookup_lt_is_Some_2 h' context Hctx) as [o' Ho'].
  destruct (getitem_slot _ _ _ _ _ Ho' Hget') as [i Hi].
  rewrite (traverse_json_container _ _ _ _ _ Ho') in Hys.
  apply list_elem_of_lookup_2, list_elem_of_In in Hi.
  destruct (for_entries_yields _ _ _ _ _ _ _ _ Hys Hi) as (sub & Hsub & _ & Hunder).
  apply Hunder.
  rewrite (traverse_json_container _ _ _ _ _ Hr) in Hsub.
  destruct (record_fields_get Sv tr j s (searches_of B Sv retries st context s))
    as (Hvalue & _).
  rewrite <- HF in Hvalue. apply dict_get_slot in Hvalue as [i' Hi'].
  assert (Hin' : In (KStr (str "value"), PStr s) (container_items (ODict F))).
  { apply list_elem_of_In. eapply list_elem_of_lookup_2. apply items_lookup. eauto. }
  destruct (for_entries_yields _ _ _ _ _ _ _ _ Hsub Hin') as (_ & _ & Hown & _).
  apply Hown. simpl. now rewrite Hs.
Qed.

Lemma rewalk_selects_value_witness :
  exists st' r,
    enrich steady numbering 1 None (State steady price_dict_heap tt 0%nat) 0
      (PStr ni_hao, KStr (str "name"), 0%nat) = Some st'
    /\ getitem (st_heap _ st') 0%nat (KStr (str "name")) = Some (PRef r)
    /\ forall depth ys,
         traverse_json (S (S depth)) (st_heap _ st') (PRef 0%nat) valid_translate_value
         = Some ys ->
         In (PStr ni_hao, KStr (str "value"), r) ys.
Proof.
  apply (rewalk_selects_value steady numbering 1 None
           (State steady price_dict_heap tt 0%nat) 0 ni_hao (KStr (str "name")) 0%nat).
  - reflexivity.
  - reflexivity.
  - intros _. eexists. reflexivity.
  - intros _. vm_compute. eauto.
Defined.

(** ** What the two passes leave of a menu *)

Lemma traverse_json_selected depth h j vp ys t :
  traverse_json depth h j vp = Some ys -> In t ys -> selects vp h t = true.
Proof.
  rewrite traverse_json_select_all.
  destruct (traverse_json depth h j select_all) as [all|]; [| done].
  intros [= <-] Hin. now apply filter_In in Hin.
Qed.

(** Both passes over a document, with the relation they establish between
    the store before and the store after. *)
Lemma process_menu_lockstep (B : browser) (Sv : services) retries
    (w : world B) (driver : nat) h0 root :
  document h0 root ->
  services_return B Sv retries h0 ->
  exists triples n,
    (exists depth, traverse_json depth h0 root valid_translate_value = Some triples)
    /\ forall fuel, (n <= fuel)%nat ->
         exists st',
           process_menu B Sv fuel retries (State B h0 w driver) root = Some st'
           /\ lockstep Sv
                (translate_text Sv (map (fun t : pyval * pykey * nat => t.1.1) triples))
                h0 (st_heap B st') triples.
Proof.
  intros (Hroot & Hclosed & Hunique & depth & everything & Hev & Hnd) Hterm.
  set (triples := List.filter (selects valid_translate_value h0) everything).
  assert (Htr : traverse_json depth h0 root valid_translate_value = Some triples)
    by (rewrite traverse_json_select_all, Hev; done).
  destruct (drain_traverse_json _ _ _ _ _ Hev) as [n1 Hn1].
  destruct (drain_traverse_json _ _ _ _ _ Htr) as [n2 Hn2].
  exists triples, (Nat.max n1 n2). split; [eauto |].
  intros fuel Hfuel.
  assert (Hcollect : collect fuel h0 root
                     = Some (map (fun t : pyval * pykey * nat => t.1.1) triples)).
  { unfold collect. replace fuel with (n2 + (fuel - n2))%nat by lia. now rewrite Hn2. }
  unfold process_menu. cbn [st_heap]. rewrite Hcollect. simpl.
  set (tr := translate_text Sv _).
  specialize (Hn1 (fuel - n1)%nat). replace (n1 + (fuel - n1))%nat with fuel in Hn1 by lia.
  destruct (mutation_lockstep B Sv retries tr h0 Hclosed Hunique Hterm fuel
              (traverse_json_gen root) everything (State B h0 w driver) [])
    as (st' & Hrun & Hlock).
  - exact Hn1.
  - exact Hnd.
  - intros p _ [].
  - apply lockstep_start.
  - repeat constructor. exact Hroot.
  - exists st'. split; [exact Hrun | exact Hlock].
Qed.

(** In a store without repeated keys, a triple the walk yields at the
    position of an entry is that entry. *)
Lemma triple_at_position depth h root vp ys x' k a o i x :
  unique_keys h ->
  traverse_json depth h root vp = Some ys -> In (x', k, a) ys ->
  h !! a = Some o -> container_items o !! i = Some (k, x) ->
  x' = x /\ vp h x k a = true.
Proof.
  intros Hunique Hys Hin Ha Hi.
  pose proof (traverse_json_selected _ _ _ _ _ _ Hys Hin) as Hsel.
  destruct (traverse_json_In _ _ _ _ _ _ _ _ Hys Hin) as [i' Hi'].
  unfold slot in Hi'. rewrite Ha in Hi'.
  assert (i' = i).
  { eapply (NoDup_lookup (map fst (container_items o))).
    - eapply Hunique; eauto.
    - rewrite list_lookup_fmap, Hi'. reflexivity.
    - rewrite list_lookup_fmap, Hi. reflexivity. }
  subst i'. rewrite Hi in Hi'. injection Hi' as <-. done.
Qed.

(** X9: over a loaded menu, with library calls and lookups that return
    at its selected leaves, the two passes end and change the selected
    leaves only: every list and dict that was in the store is still there
    with the same keys in the same order (keys are never translated), and
    every entry the predicate does not select is as it was. *)
Theorem process_menu_frame (B : browser) (Sv : services) retries
    (w : world B) (driver : nat) h0 root :
  document h0 root ->
  services_return B Sv retries h0 ->
  exists n, forall fuel, (n <= fuel)%nat ->
    exists st',
      process_menu B Sv fuel retries (State B h0 w driver) root = Some st'
      /\ forall a o0, h0 !! a = Some o0 ->
           exists o,
             st_heap B st' !! a = Some o
             /\ map fst (container_items o) = map fst (container_items o0)
             /\ forall i k x,
                  container_items o0 !! i = Some (k, x) ->
                  valid_translate_value h0 x k a = false ->
                  container_items o !! i = Some (k, x).
Proof.
  intros Hdoc Hterm. pose proof Hdoc as (_ & _ & Hunique & _).
  destruct (process_menu_lockstep B Sv retries w driver h0 root Hdoc Hterm)
    as (triples & n & [depth Htr] & Hrun).
  exists n. intros fuel Hfuel. destruct (Hrun fuel Hfuel) as (st' & Hst' & Hlock).
  exists st'. split; [done |]. intros a o0 Ha0.
  destruct (lock_keys _ _ _ _ _ Hlock a o0 Ha0) as (o & Ha & Hkeys).
  exists o. split; [done |]. split; [done |]. intros i k x Hi Hsel.
  assert (Hslot0 : slot h0 a i = Some (k, x)) by (unfold slot; now rewrite Ha0).
  assert (Hslot : slot (st_heap B st') a i = Some (k, x)).
  { apply (lock_slots _ _ _ _ _ Hlock a i k x Hslot0).
    intros Hin. apply in_map_iff in Hin as ([[x' k'] a'] & [= -> ->] & Hin).
    destruct (triple_at_position _ _ _ _ _ _ _ _ _ _ _ Hunique Htr Hin Ha0 Hi) as [_ Hx].
    congruence. }
  unfold slot in Hslot. now rewrite Ha in Hslot.
Qed.

Lemma process_menu_frame_witness :
  exists n, forall fuel, (n <= fuel)%nat ->
    exists st',
      process_menu steady numbering fuel 1 (State steady sample_heap tt 0%nat) sample_root
        = Some st'
      /\ forall a o0, sample_heap !! a = Some o0 ->
           exists o,
             st_heap steady st' !! a = Some o
             /\ map fst (container_items o) = map fst (container_items o0)
             /\ forall i k x,
                  container_items o0 !! i = Some (k, x) ->
                  valid_translate_value sample_heap x k a = false ->
                  container_items o !! i = Some (k, x).
Proof.
  apply (process_menu_frame steady numbering 1 tt 0%nat sample_heap sample_root).
  - exact (load_document sample_menu sample_menu_unique_names).
  - exact (steady_services_return sample_heap).
Defined.

(** X10: a run of the loop body on a selected leaf, on which the library
    calls return, does not change whether a list or dict of the store holds
    a given ASCII string: [p in c] answers after the body as it did before
    it, for the container of the leaf and for every other, and for
    ["price"] in particular. *)
Theorem price_test_stable (B : browser) (Sv : services) retries tr (st : state B)
    j s key context :
  getitem (st_heap B st) context key = Some (PStr s) ->
  is_ascii s = false ->
  (strip (strip_ascii s) <> [] -> is_Some (pinyin_get Sv (strip_ascii s))) ->
  (contains (st_heap B st) context (str "price") = true ->
   is_Some (lookups B Sv retries (st_world B st) (st_driver B st) s)) ->
  exists st',
    enrich B Sv retries tr st j (PStr s, key, context) = Some st'
    /\ forall a p, (a < length (st_heap B st))%nat -> is_ascii p = true ->
         contains (st_heap B st') a p = contains (st_heap B st) a p.
Proof.
  intros Hget Hs Hpin Hterm. set (h := st_heap B st) in *.
  assert (Hsome : is_Some (getitem h context key)) by eauto.
  destruct (enrich_leaf B Sv retries tr st j s key context Hget Hs Hpin)
    as (h1 & Hstore & Hget1 & Henrich).
  fold h in Hstore, Hget1, Henrich.
  destruct (store_record_spec _ _ _ (PStr s) Hsome) as (h1' & E & _ & _ & Hlen1 & Hother).
  rewrite Hstore in E. injection E as <-.
  assert (Hst' : exists F w d,
            enrich B Sv retries tr st j (PStr s, key, context)
            = Some (State B (<[length h := ODict F]> h1) w d)).
  { rewrite Henrich. destruct (contains h context (str "price")); [| eauto].
    destruct Hterm as [[[[w d] gs] gis] ->]; [done |]. simpl. eauto. }
  destruct Hst' as (F & w & d & ->). eexists. split; [reflexivity |]. simpl.
  intros a p Ha Hp. rewrite contains_insert_ne by lia.
  destruct (decide (a = context)) as [-> | Hne].
  - apply (contains_store_record _ _ _ s p h1 Hget); [| done]. intros ->. congruence.
  - unfold contains. now rewrite Hother.
Qed.

Lemma price_test_stable_witness :
  exists st',
    enrich (brittle 9) numbering 1 None (State (brittle 9) price_list_heap [9%nat] 0%nat) 0
      (PStr ni_hao, KIdx 1, 0%nat) = Some st'
    /\ forall a p, (a < length price_list_heap)%nat -> is_ascii p = true ->
         contains (st_heap _ st') a p = contains price_list_heap a p.
Proof.
  apply (price_test_stable (brittle 9) numbering 1 None
           (State (brittle 9) price_list_heap [9%nat] 0%nat) 0 ni_hao (KIdx 1) 0%nat).
  - reflexivity.
  - reflexivity.
  - intros _. eexists. reflexivity.
  - intros _. vm_compute. eauto.
Defined.

(** X12: over a loaded menu, with library calls and lookups that return
    at its selected leaves, both passes end; afterwards every list and dict
    of the menu answers [p in c] for an ASCII string [p] as it did when the
    menu was loaded, and a selected leaf whose container had no [price]
    then has neither [knowledge_graph] nor [google_image] in its record. *)
Theorem lookup_fields_need_price (B : browser) (Sv : services) retries
    (w : world B) (driver : nat) h0 root :
  document h0 root ->
  services_return B Sv retries h0 ->
  exists triples n,
    (exists depth, traverse_json depth h0 root valid_translate_value = Some triples)
    /\ forall fuel, (n <= fuel)%nat ->
         exists st',
           process_menu B Sv fuel retries (State B h0 w driver) root = Some st'
           /\ (forall a p, (a < length h0)%nat -> is_ascii p = true ->
                 contains (st_heap B st') a p = contains h0 a p)
           /\ (forall j value key context,
                 triples !! j = Some (value, key, context) ->
                 contains h0 context (str "price") = false ->
                 field (st_heap B st') context key (str "knowledge_graph") = None
                 /\ field (st_heap B st') context key (str "google_image") = None).
Proof.
  intros Hdoc Hterm.
  destruct (process_menu_lockstep B Sv retries w driver h0 root Hdoc Hterm)
    as (triples & n & Htr & Hrun).
  exists triples, n. split; [exact Htr |].
  intros fuel Hfuel. destruct (Hrun fuel Hfuel) as (st' & Hst' & Hlock).
  exists st'. split; [done |]. split.
  - intros a p Ha Hp. eapply lockstep_contains; eauto.
  - intros j value key context Hj Hprice.
    destruct (lock_leaves _ _ _ _ _ Hlock j value key context Hj) as (i & s & -> & _ & _).
    destruct (lock_records _ _ _ _ _ Hlock j s key context Hj)
      as (searches & r & Hget & _ & Hr & Hnone).
    rewrite (Hnone Hprice) in Hr.
    assert (Hrec : record_at (st_heap B st') context key
                   = Some (record_fields Sv
                             (translate_text Sv
                                (map (fun t : pyval * pykey * nat => t.1.1) triples))
                             j s None))
      by (unfold record_at; now rewrite Hget, Hr).
    rewrite !(field_record _ _ _ _ _ Hrec).
    destruct (record_fields_get Sv
                (translate_text Sv (map (fun t : pyval * pykey * nat => t.1.1) triples))
                j s None) as (_ & _ & -> & -> & _).
    done.
Qed.

Lemma lookup_fields_need_price_witness :
  exists triples n,
    (exists depth,
       traverse_json depth sample_heap sample_root valid_translate_value = Some triples)
    /\ forall fuel, (n <= fuel)%nat ->
         exists st',
           process_menu steady numbering fuel 1 (State steady sample_heap tt 0%nat)
             sample_root = Some st'
           /\ (forall a p, (a < length sample_heap)%nat -> is_ascii p = true ->
                 contains (st_heap steady st') a p = contains sample_heap a p)
           /\ (forall j value key context,
                 triples !! j = Some (value, key, context) ->
                 contains sample_heap context (str "price") = false ->
                 field (st_heap steady st') context key (str "knowledge_graph") = None
                 /\ field (st_heap steady st') context key (str "google_image") = None).
Proof.
  apply (lookup_fields_need_price steady numbering 1 tt 0%nat sample_heap sample_root).
  - exact (load_document sample_menu sample_menu_unique_names).
  - exact (steady_services_return sample_heap).
Defined.

(** ** Library calls that raise *)

(** X13: when [pinyin.get] raises on the projection of a selected leaf, or
    [urllib.parse.quote] raises on a selected leaf whose container has
    [price], the loop body does not return, whatever the bound on the
    retries, and neither does a mutation pass that is handed that leaf:
    nothing in [main] catches the exception. *)
Theorem library_call_raises (B : browser) (Sv : services) retries tr (st : state B)
    j s key context :
  getitem (st_heap B st) context key = Some (PStr s) ->
  is_ascii s = false ->
  (strip (strip_ascii s) <> [] /\ pinyin_get Sv (strip_ascii s) = None)
  \/ (contains (st_heap B st) context (str "price") = true /\ quote Sv s = None) ->
  enrich B Sv retries tr st j (PStr s, key, context) = None
  /\ forall fuel g rest,
       gen_step valid_translate_value (st_heap B st) g = Yield (PStr s, key, context) rest ->
       mutation_pass B Sv fuel retries tr st g j = None.
Proof.
  intros Hget Hs Hraise.
  pose proof (enrich_leaf_raises B Sv retries tr st j s key context Hget Hs Hraise) as Hnone.
  split; [exact Hnone |].
  intros [|fuel] g rest Hstep; [done |].
  cbn [mutation_pass]. now rewrite Hstep, Hnone.
Qed.

Lemma library_call_raises_witness :
  enrich (brittle 9) fussy 1 None (State (brittle 9) surrogate_heap [9%nat] 0%nat) 0
    (PStr [0xd800], KStr (str "name"), 0%nat) = None
  /\ forall fuel g rest,
       gen_step valid_translate_value surrogate_heap g
         = Yield (PStr [0xd800], KStr (str "name"), 0%nat) rest ->
       mutation_pass (brittle 9) fussy fuel 1 None
         (State (brittle 9) surrogate_heap [9%nat] 0%nat) g 0 = None.
Proof.
  apply (library_call_raises (brittle 9) fussy 1 None
           (State (brittle 9) surrogate_heap [9%nat] 0%nat) 0 [0xd800]
           (KStr (str "name")) 0%nat).
  - reflexivity.
  - reflexivity.
  - right. split; reflexivity.
Defined.

(** The two sample menus with a leaf on which a library call raises: the
    passes over them do not return. *)
Example library_call_raises_samples :
  process_menu (brittle 9) fussy 40 3 (State (brittle 9) surrogate_heap [9%nat] 0%nat)
    (PRef 0%nat) = None
  /\ process_menu (brittle 9) fussy 40 3 (State (brittle 9) rare_heap [9%nat] 0%nat)
       (PRef 0%nat) = None
  /\ is_Some (process_menu (brittle 9) numbering 40 3
                (State (brittle 9) surrogate_heap [9%nat] 0%nat) (PRef 0%nat)).
Proof.
  split; [reflexivity |]. split; [reflexivity |]. eexists. reflexivity.
Qed.

(** ** The pages the body asks for *)

Section Logging.

Context (B : browser) (Sv : services).

Lemma get_page_xpaths_pages xpaths :
  forall (w : world (logging B)) d results,
    (get_page_xpaths (logging B) w d xpaths results).1.2 = w.2.
Proof.
  induction xpaths as [|[xpath attr] xpaths IH]; intros [w l] d results; simpl; [done |].
  destruct (find_element_by_xpath B w d xpath) as [w1 [el | [|]]]; simpl;
    try done; try apply (IH (w1, l)).
  destruct (startswith_at attr).
  - destruct (get_attribute B w1 el (tail attr)) as [w2 [v | [|]]]; simpl;
      try done; try apply (IH (w2, l)).
  - destruct (getattr B w1 el attr) as [w2 [v | [|]]]; simpl;
      try done; try apply (IH (w2, l)).
Qed.

Lemma get_page_pages (w : world (logging B)) url xpaths d :
  (get_page (logging B) w url xpaths d).1.2 = w.2 ++ [url].
Proof.
  destruct w as [w l]. unfold get_page. simpl.
  destruct (driver_get B w d url) as [w1 [[] | e]]; simpl; [| done].
  apply (get_page_xpaths_pages xpaths (w1, l ++ [url])).
Qed.

Lemma new_driver_pages (w : world (logging B)) :
  (new_driver (logging B) w).1.2 = w.2.
Proof. destruct w as [w l]. simpl. now destruct (new_driver B w). Qed.

Lemma google_search_loop_pages fuel :
  forall (w : world (logging B)) d s w' d' gs,
    google_search_loop (logging B) Sv fuel w d s = Some (w', d', gs) ->
    exists url k, search_url Sv s = Some url /\ w'.2 = w.2 ++ replicate (S k) url.
Proof.
  induction fuel as [|n IH]; intros w d s w' d' gs; [done |].
  cbn [google_search_loop].
  destruct (search_url Sv s) as [url|] eqn:Hurl; cbn [mbind option_bind]; [| done].
  pose proof (get_page_pages w url search_xpaths d) as Hnav.
  destruct (get_page (logging B) w url search_xpaths d) as [w1 [r|]];
    simpl in Hnav.
  - intros [= <- <- <-]. exists url, 0%nat. done.
  - pose proof (new_driver_pages w1) as Hnew.
    destruct (new_driver (logging B) w1) as [w2 d2]. simpl in Hnew.
    intros H. apply IH in H as (url' & k & Hurl' & Hk).
    rewrite Hurl in Hurl'. injection Hurl' as <-.
    exists url, (S k). split; [done |].
    rewrite Hk, Hnew, Hnav, <- app_assoc. done.
Qed.

Lemma google_img_search_loop_pages fuel :
  forall (w : world (logging B)) d gs s w' d' gis,
    google_img_search_loop (logging B) Sv fuel w d gs s = Some (w', d', gis) ->
    exists url k, img_search_url Sv s = Some url /\ w'.2 = w.2 ++ replicate (S k) url.
Proof.
  induction fuel as [|n IH]; intros w d gs s w' d' gis; [done |].
  cbn [google_img_search_loop].
  destruct (img_search_url Sv s) as [url|] eqn:Hurl; cbn [mbind option_bind]; [| done].
  pose proof (get_page_pages w url img_search_xpaths d) as Hnav.
  destruct (get_page (logging B) w url img_search_xpaths d) as [w1 r].
  simpl in Hnav.
  assert (Hnew : forall w2 d2,
            match gs with Some _ => (w1, d) | None => new_driver (logging B) w1 end = (w2, d2) ->
            w2.2 = w1.2).
  { intros w2 d2. destruct gs; [now intros [= <- <-] |].
    pose proof (new_driver_pages w1) as H. intros E. now rewrite E in H. }
  destruct (match gs with Some _ => (w1, d) | None => new_driver (logging B) w1 end)
    as [w2 d2].
  specialize (Hnew w2 d2 eq_refl).
  destruct r as [r|].
  - intros [= <- <- <-]. exists url, 0%nat. split; [done |]. now rewrite Hnew, Hnav.
  - intros H. apply IH in H as (url' & k & Hurl' & Hk).
    rewrite Hurl in Hurl'. injection Hurl' as <-.
    exists url, (S k). split; [done |].
    rewrite Hk, Hnew, Hnav, <- app_assoc. done.
Qed.

End Logging.

(** X14: the pages the loop body asks the browser for, on a selected leaf
    on which the library calls return: none when the container has no
    [price]; otherwise the knowledge-panel search address of the leaf, once
    or more, followed by its image search address, once or more, and
    nothing else. *)
Theorem enrich_pages (B : browser) (Sv : services) retries tr
    (st : state (logging B)) j s key context :
  getitem (st_heap _ st) context key = Some (PStr s) ->
  is_ascii s = false ->
  (strip (strip_ascii s) <> [] -> is_Some (pinyin_get Sv (strip_ascii s))) ->
  (contains (st_heap _ st) context (str "price") = true ->
   is_Some (lookups (logging B) Sv retries (st_world _ st) (st_driver _ st) s)) ->
  exists st',
    enrich (logging B) Sv retries tr st j (PStr s, key, context) = Some st'
    /\ (contains (st_heap _ st) context (str "price") = false -> pages st' = pages st)
    /\ (contains (st_heap _ st) context (str "price") = true ->
        exists quoted k m,
          quote Sv s = Some quoted
          /\ pages st'
             = pages st
               ++ replicate (S k) (str "https://www.google.com/search?q=" ++ quoted)
               ++ replicate (S m)
                    (str "https://www.google.com/search?tbm=isch&q=" ++ quoted ++ str "+food")).
Proof.
  intros Hget Hs Hpin Hterm.
  destruct (enrich_leaf (logging B) Sv retries tr st j s key context Hget Hs Hpin)
    as (h1 & _ & _ & ->).
  unfold pages.
  destruct (contains (st_heap _ st) context (str "price")) eqn:Hprice.
  - destruct Hterm as [[[[w d] gs] gis] Hl]; [done |]. rewrite Hl. simpl.
    eexists. split; [reflexivity |]. simpl. split; [done |]. intros _.
    unfold lookups in Hl.
    destruct (google_search_loop (logging B) Sv retries _ _ s) as [[[w1 d1] gs1]|] eqn:E1;
      simpl in Hl; [| done].
    destruct (google_img_search_loop (logging B) Sv retries w1 d1 (Some gs1) s)
      as [[[w2 d2] gis2]|] eqn:E2; simpl in Hl; [| done].
    injection Hl as <- <- <- <-.
    apply google_search_loop_pages in E1 as (url1 & k & Hurl1 & Hk).
    apply google_img_search_loop_pages in E2 as (url2 & m & Hurl2 & Hm).
    unfold search_url in Hurl1. unfold img_search_url in Hurl2.
    destruct (quote Sv s) as [quoted|]; [| done]. simpl in Hurl1, Hurl2.
    injection Hurl1 as <-. injection Hurl2 as <-.
    exists quoted, k, m. split; [done |]. rewrite Hm, Hk, <- app_assoc. done.
  - eexists. split; [reflexivity |]. simpl. split; done.
Qed.

Lemma enrich_pages_witness :
  exists st',
    enrich (logging (brittle 9)) numbering 3 None
      (State (logging (brittle 9)) price_dict_heap ([1%nat], []) 0%nat) 0
      (PStr ni_hao, KStr (str "name"), 0%nat) = Some st'
    /\ (contains price_dict_heap 0%nat (str "price") = false -> pages st' = [])
    /\ (contains price_dict_heap 0%nat (str "price") = true ->
        exists quoted k m,
          quote numbering ni_hao = Some quoted
          /\ pages st'
             = [] ++ replicate (S k) (str "https://www.google.com/search?q=" ++ quoted)
               ++ replicate (S m)
                    (str "https://www.google.com/search?tbm=isch&q=" ++ quoted ++ str "+food")).
Proof.
  apply (enrich_pages (brittle 9) numbering 3 None
           (State (logging (brittle 9)) price_dict_heap ([1%nat], []) 0%nat) 0 ni_hao
           (KStr (str "name")) 0%nat).
  - reflexivity.
  - reflexivity.
  - intros _. eexists. reflexivity.
  - intros _. vm_compute. eauto.
Defined.

(** ** The collection pass over a loaded menu *)

Lemma traverse_json_app_selected d h ext v :
  closed_store h -> closed_value (length h) v ->
  traverse_json d (h ++ ext) v valid_translate_value
  = traverse_json d h v valid_translate_value.
Proof.
  intros Hclosed Hv. apply traverse_json_same.
  - now apply same_document_app.
  - intros a o k x _ _ _. reflexivity.
Qed.

Lemma own_leaf_load t before h k a :
  (if valid_translate_value h (load t before).2 k a then [(load t before).2] else [])
  = map PStr (own_leaf t).
Proof.
  destruct t as [| | | |s|elems|members]; simpl; try done.
  - now destruct (is_ascii s).
  - now destruct (load_seq load elems before).
  - now destruct (load_seq _ members before).
Qed.

Lemma leaves_array elems :
  leaves (JArray elems) = concat (map (fun c => own_leaf c ++ leaves c) elems).
Proof.
  simpl. induction elems as [|c r IH]; simpl; [done |].
  now rewrite IH, app_assoc.
Qed.

Lemma leaves_object members :
  leaves (JObject members)
  = concat (map (fun kc : list Z * json => own_leaf (snd kc) ++ leaves (snd kc)) members).
Proof.
  simpl. induction members as [|c r IH]; simpl; [done |].
  now rewrite IH, app_assoc.
Qed.

(** The walk of a new container over values loaded one after the other
    yields, for each value in turn, the value if it is selected and then
    what the walk of the value yields. *)
Lemma load_seq_walked {A} (ld : A -> list pyobj -> list pyobj * pyval) (ok : A -> Prop)
    (own under : A -> list (list Z)) ts :
  Forall (fun t => ok t -> forall before, closed_store before -> unique_keys before ->
            loaded before (ld t before).1 (ld t before).2
            /\ (forall h k a,
                  (if valid_translate_value h (ld t before).2 k a
                   then [(ld t before).2] else []) = map PStr (own t))
            /\ exists depth ys,
                 traverse_json depth (ld t before).1 (ld t before).2 valid_translate_value
                   = Some ys
                 /\ map (fun vkc : pyval * pykey * nat => vkc.1.1) ys
                    = map PStr (under t)) ts ->
  Forall ok ts ->
  forall before, closed_store before -> unique_keys before ->
  exists depth, forall a entries ext,
    map snd entries = (load_seq ld ts before).2 ->
    exists ys,
      for_entries (fun x => traverse_json depth ((load_seq ld ts before).1 ++ ext) x
                              valid_translate_value)
        valid_translate_value ((load_seq ld ts before).1 ++ ext) a entries = Some ys
      /\ map (fun vkc : pyval * pykey * nat => vkc.1.1) ys
         = map PStr (concat (map (fun t => own t ++ under t) ts)).
Proof.
  induction ts as [|t ts IH]; intros Hld Hok before Hclosed Hunique.
  - exists 0%nat. intros a entries ext Hsnd. simpl in Hsnd.
    apply map_eq_nil in Hsnd as ->. now exists [].
  - apply Forall_cons in Hld as [Ht Hld]. apply Forall_cons in Hok as [Hokt Hok].
    destruct (Ht Hokt before Hclosed Hunique) as (Hloaded & Hown & d1 & ys1 & Hys1 & Hval1).
    assert (Hseq : Forall (fun t => ok t -> forall before,
                      closed_store before -> unique_keys before ->
                      loaded before (ld t before).1 (ld t before).2) ts).
    { eapply Forall_impl; [exact Hld |]. intros t' H Hokt' before' Hc Hu.
      now destruct (H Hokt' before' Hc Hu). }
    simpl. destruct (ld t before) as [h1 v]. simpl in *.
    destruct Hloaded as (_ & Hclosed1 & Hunique1 & Hv & _).
    destruct (IH Hld Hok h1 Hclosed1 Hunique1) as [d2 Hd2].
    destruct (load_seq_loaded ld ok ts Hseq Hok h1 Hclosed1 Hunique1)
      as [([ext2 Hext2] & _) _].
    destruct (load_seq ld ts h1) as [h2 vs]. simpl in *. subst h2.
    exists (Nat.max d1 d2). intros a [|[k x] entries] ext Hsnd; [done |].
    simpl in Hsnd. injection Hsnd as -> Hsnd.
    destruct (Hd2 a entries ext Hsnd) as (ys2 & Hys2 & Hval2).
    assert (Hv' : traverse_json (Nat.max d1 d2) ((h1 ++ ext2) ++ ext) v valid_translate_value
                  = Some ys1).
    { rewrite <- app_assoc, traverse_json_app_selected by done.
      eapply traverse_json_mono; [| exact Hys1]. lia. }
    assert (Hrest : for_entries
                      (fun x => traverse_json (Nat.max d1 d2) ((h1 ++ ext2) ++ ext) x
                                  valid_translate_value)
                      valid_translate_value ((h1 ++ ext2) ++ ext) a entries = Some ys2).
    { eapply for_entries_mono; [| exact Hys2].
      intros y sub. apply traverse_json_mono. lia. }
    exists ((if valid_translate_value ((h1 ++ ext2) ++ ext) v k a then [(v, k, a)] else [])
            ++ ys1 ++ ys2).
    split.
    { unfold for_entries in *. cbn [for_yield fst snd]. rewrite Hv'.
      cbn [fmap option_fmap option_map]. rewrite Hrest. simpl. now rewrite app_assoc. }
    rewrite !map_app, Hval1, Hval2, <- (Hown ((h1 ++ ext2) ++ ext) k a).
    now destruct (valid_translate_value _ v k a).
Qed.

(** The selected values a walk of a loaded JSON text yields. *)
Lemma load_walked t :
  unique_names t ->
  forall before, closed_store before -> unique_keys before ->
  exists depth ys,
    traverse_json depth (load t before).1 (load t before).2 valid_translate_value = Some ys
    /\ map (fun vkc : pyval * pykey * nat => vkc.1.1) ys = map PStr (leaves t).
Proof.
  induction t as [| | | | |elems IH|members IH] using json_nested_ind;
    intros Hnames before Hclosed Hunique; try (now exists 1%nat, []).
  - apply unique_names_array in Hnames. rewrite leaves_array.
    assert (H : Forall (fun t => unique_names t -> forall before,
                  closed_store before -> unique_keys before ->
                  loaded before (load t before).1 (load t before).2
                  /\ (forall h k a,
                        (if valid_translate_value h (load t before).2 k a
                         then [(load t before).2] else []) = map PStr (own_leaf t))
                  /\ exists depth ys,
                       traverse_json depth (load t before).1 (load t before).2
                         valid_translate_value = Some ys
                       /\ map (fun vkc : pyval * pykey * nat => vkc.1.1) ys
                          = map PStr (leaves t)) elems).
    { eapply Forall_impl; [exact IH |]. intros t' Ht' Hok before' Hc Hu.
      split; [now apply load_loaded |].
      split; [intros; apply own_leaf_load | now apply Ht']. }
    destruct (load_seq_walked load unique_names own_leaf leaves elems H Hnames
                before Hclosed Hunique) as [d Hd].
    simpl. destruct (load_seq load elems before) as [h vs]. simpl in *.
    destruct (Hd (length h) (enumerate vs) [OList vs] (enumerate_values vs))
      as (ys & Hys & Hval).
    exists (S d), ys. split; [| done].
    simpl. rewrite lookup_app_r, Nat.sub_diag by lia. exact Hys.
  - apply unique_names_object in Hnames as [Hkeys Hnames]. rewrite leaves_object.
    assert (H : Forall (fun kt : list Z * json => unique_names (snd kt) -> forall before,
                  closed_store before -> unique_keys before ->
                  loaded before (load (snd kt) before).1 (load (snd kt) before).2
                  /\ (forall h k a,
                        (if valid_translate_value h (load (snd kt) before).2 k a
                         then [(load (snd kt) before).2] else [])
                        = map PStr (own_leaf (snd kt)))
                  /\ exists depth ys,
                       traverse_json depth (load (snd kt) before).1 (load (snd kt) before).2
                         valid_translate_value = Some ys
                       /\ map (fun vkc : pyval * pykey * nat => vkc.1.1) ys
                          = map PStr (leaves (snd kt))) members).
    { eapply Forall_impl; [exact IH |]. intros t' Ht' Hok before' Hc Hu.
      split; [now apply load_loaded |].
      split; [intros; apply own_leaf_load | now apply Ht']. }
    destruct (load_seq_walked (fun kt => load (snd kt)) (fun kt => unique_names (snd kt))
                (fun kt => own_leaf (snd kt)) (fun kt => leaves (snd kt)) members H Hnames
                before Hclosed Hunique) as [d Hd].
    destruct (load_seq_loaded (fun kt => load (snd kt)) (fun kt => unique_names (snd kt))
                members) with (before := before) as [_ Hlen]; try done.
    { eapply Forall_impl; [exact H |]. intros t' Ht' Hok before' Hc Hu.
      now destruct (Ht' Hok before' Hc Hu). }
    simpl. destruct (load_seq (fun kt => load (snd kt)) members before) as [h vs].
    simpl in *.
    assert (Hfst : map fst (zip (map fst members) vs) = map fst members)
      by (apply fst_zip; rewrite length_map; lia).
    assert (Hsnd : map snd (zip (map fst members) vs) = vs)
      by (apply snd_zip; rewrite length_map; lia).
    rewrite dict_of_unique by now rewrite Hfst.
    destruct (Hd (length h) (items (zip (map fst members) vs))
                [ODict (zip (map fst members) vs)]) as (ys & Hys & Hval).
    { unfold items. rewrite map_map. simpl. exact Hsnd. }
    exists (S d), ys. split; [| done].
    simpl. rewrite lookup_app_r, Nat.sub_diag by lia. exact Hys.
Qed.

(** X11: the collection pass over a menu as [json.load] builds it, from a
    text none of whose objects repeats a name, ends, and what it collects
    are the strings of the text that are not ASCII in the sense of
    [is_ascii], each as often as it occurs and in the order of the text;
    a text that is a bare string gives none. *)
Theorem collect_leaves t :
  unique_names t ->
  exists n, forall fuel, (n <= fuel)%nat ->
    collect fuel (load t []).1 (load t []).2 = Some (map PStr (leaves t)).
Proof.
  intros Hnames.
  destruct (load_walked t Hnames []) as (depth & ys & Hys & Hval).
  - intros a o k x Ha. done.
  - intros a o Ha. done.
  - destruct (drain_traverse_json _ _ _ _ _ Hys) as [n Hn].
    exists n. intros fuel Hfuel. unfold collect.
    replace fuel with (n + (fuel - n))%nat by lia. rewrite Hn. simpl.
    now rewrite Hval.
Qed.

Lemma collect_leaves_witness :
  exists n, forall fuel, (n <= fuel)%nat ->
    collect fuel sample_heap sample_root = Some (map PStr (leaves sample_menu)).
Proof.
  apply (collect_leaves sample_menu). exact sample_menu_unique_names.
Defined.
